(** * safe_learning/utilities.py: grids, LQR synthesis and ellipse bounds

    A shallow embedding of the four functions of [utilities.py]
    ([combinations], [linearly_spaced_combinations], [lqr],
    [ellipse_bounds]) and the properties of them that the specification
    states.

    Numbers are modelled in exact arithmetic (Stdlib reals): a NumPy
    [float64] value is read as the real it denotes.  NumPy arrays are
    modelled by their shape and their item function, so that [meshgrid],
    [np.array], [.T] and [reshape] are the index manipulations NumPy
    documents.  Python exceptions are modelled by the name of their class.
    Library routines whose code is not in the module ([np.linalg.eig],
    [np.linalg.solve], [scipy.linalg.solve_continuous_are], and NumPy's
    conversion of a float used as a slice bound, which differs between
    releases) are parameters of the functions that call them. *)

From Stdlib Require Import String.
From Stdlib Require Import List Arith ZArith Lia Permutation.
From Stdlib Require Import Reals Lra Zfloor.
Import ListNotations.
Open Scope string_scope.
Open Scope list_scope.
Open Scope nat_scope.

Set Implicit Arguments.

(** ** Python results *)

(** A call either returns a value or raises an exception, named by its
    class ([ValueError], [LinAlgError], ...). *)
Inductive result (A : Type) : Type :=
| Ok (a : A)
| Raise (exn : string).

Arguments Ok {A} a.
Arguments Raise {A} exn.

Definition bind {A B : Type} (r : result A) (k : A -> result B) : result B :=
  match r with
  | Ok a => k a
  | Raise e => Raise e
  end.

Notation "x <- r ;; k" := (bind r (fun x => k))
  (at level 61, r at next level, right associativity).

(** ** NumPy arrays: shape and item function *)

Module Np.

(** Number of items of an array of the given shape. *)
Definition size (shape : list nat) : nat := fold_right Nat.mul 1 shape.

(** [np.unravel_index k shape] in C order: the last axis varies fastest. *)
Fixpoint unravel (shape : list nat) (k : nat) : list nat :=
  match shape with
  | [] => []
  | _ :: s => k / size s :: unravel s (k mod size s)
  end.

(** [np.ravel_multi_index idx shape] in C order. *)
Fixpoint ravel (shape idx : list nat) : nat :=
  match shape, idx with
  | _ :: s, i :: idx' => i * size s + ravel s idx'
  | _, _ => 0
  end.

Section Arrays.

Variable A : Type.
Variable dflt : A.

(** An n-dimensional array.  [item] is read only at multi-indices that are
    within [shape]. *)
Record ndarray : Type := mk_ndarray {
  shape : list nat;
  item : list nat -> A
}.

(** Exchange the first two entries; the identity on shorter lists. *)
Definition swap01 (X : Type) (l : list X) : list X :=
  match l with
  | a :: b :: r => b :: a :: r
  | _ => l
  end.

(** The axis of the meshgrid outputs along which input number [i] varies:
    with the default [indexing='xy'] and more than one input, the first two
    axes are exchanged. *)
Definition mesh_axis (ndim i : nat) : nat :=
  if 1 <? ndim then
    match i with
    | 0 => 1
    | 1 => 0
    | _ => i
    end
  else i.

(** [np.meshgrid( *xi )] with the defaults [indexing='xy'], [sparse=False]:
    one array per input, all of shape (n2, n1, n3, ..., nd); output [i] at a
    multi-index is input [i] at the coordinate of its own axis. *)
Definition meshgrid (xi : list (list A)) : list ndarray :=
  let ndim := length xi in
  let s := swap01 (map (@length A) xi) in
  map (fun i =>
         {| shape := s;
            item := fun idx => nth (nth (mesh_axis ndim i) idx 0) (nth i xi []) dflt |})
      (seq 0 ndim).

(** [np.array(arrs)] on a list of arrays of one shape: a new leading axis.
    The empty list gives the empty 1-d array. *)
Definition array (arrs : list ndarray) : ndarray :=
  match arrs with
  | [] => {| shape := [0]; item := fun _ => dflt |}
  | a0 :: _ =>
      {| shape := length arrs :: shape a0;
         item := fun idx =>
                   match idx with
                   | [] => dflt
                   | i :: rest => item (nth i arrs a0) rest
                   end |}
  end.

(** [a.T]: the axes in reverse order. *)
Definition T (a : ndarray) : ndarray :=
  {| shape := rev (shape a);
     item := fun idx => item a (rev idx) |}.

(** [a.reshape(-1, ncol)].  NumPy infers the unknown dimension as
    [size / ncol] and raises [ValueError] when [ncol] is 0 or does not divide
    the size; the items keep their C order. *)
Definition reshape_rows (a : ndarray) (ncol : nat) : result ndarray :=
  let n := size (shape a) in
  if orb (ncol =? 0) (negb (n mod ncol =? 0)) then Raise "ValueError"
  else Ok {| shape := [n / ncol; ncol];
             item := fun idx => item a (unravel (shape a) (ravel [n / ncol; ncol] idx)) |}.

(** The rows of a 2-d array, as lists. *)
Definition rows (a : ndarray) : list (list A) :=
  match shape a with
  | [r; c] => map (fun i => map (fun j => item a [i; j]) (seq 0 c)) (seq 0 r)
  | _ => []
  end.

End Arrays.

End Np.

(** ** [combinations] (utilities.py, line 24) *)

Section Combinations.

Variable A : Type.
Variable dflt : A.

(** [np.array(np.meshgrid( *arrays )).T.reshape(-1, len(arrays))] *)
Definition combinations (arrays : list (list A)) : result (Np.ndarray A) :=
  Np.reshape_rows (Np.T (Np.array dflt (Np.meshgrid dflt arrays))) (length arrays).

End Combinations.


(** The Cartesian product of the specification: every way of choosing one
    element per array, the first array varying slowest. *)
Fixpoint cartesian (A : Type) (arrays : list (list A)) : list (list A) :=
  match arrays with
  | [] => [[]]
  | x :: rest => flat_map (fun v => map (cons v) (cartesian rest)) x
  end.

(** The tuple that a multi-index selects: entry [i] of array [i]. *)
Fixpoint pick (A : Type) (dflt : A) (arrays : list (list A)) (idx : list nat) : list A :=
  match arrays, idx with
  | x :: rest, i :: idx' => nth i x dflt :: pick dflt rest idx'
  | _, _ => []
  end.

(** All multi-indices within a shape, in C order. *)
Fixpoint all_idx (shape : list nat) : list (list nat) :=
  match shape with
  | [] => [[]]
  | n :: s => flat_map (fun i => map (cons i) (all_idx s)) (seq 0 n)
  end.

(** The choice of items that row [r] of the table of [combinations] holds,
    for inputs of lengths [lens]: the C-order multi-index of [r] in the
    transposed meshgrid shape, read back in the order of the inputs. *)
Definition row_index (lens : list nat) (r : nat) : list nat :=
  Np.swap01 (rev (Np.unravel (rev (Np.swap01 lens)) r)).

(** ** [linearly_spaced_combinations] (utilities.py, line 39) *)

Open Scope R_scope.

(** [np.linspace(start, stop, num)] with the default [endpoint=True]:
    [arange(num) * step + start] with [step = (stop - start) / (num - 1)],
    the last item then set to [stop]; for [num <= 1] the step is undefined
    and the items are [arange(num) * (stop - start) + start].  The
    arithmetic here is exact: on floats every operation rounds, and
    [stop - start] overflows for ends that are about [1e308] apart. *)
Definition linspace (start stop : R) (num : nat) : list R :=
  let delta := stop - start in
  if (num <=? 1)%nat then
    map (fun k => INR k * delta + start) (seq 0 num)
  else
    let step := delta / INR (num - 1) in
    removelast (map (fun k => INR k * step + start) (seq 0 num)) ++ [stop].

(** The sample-count argument: an integer, or a [Sequence] of integers
    ([isinstance(num_samples, Sequence)]). *)
Inductive sample_spec : Type :=
| Scalar (n : nat)
| Sequence (ns : list nat).

(** The counts the function uses: a scalar is repeated [num_vars] times, a
    sequence is taken as it is. *)
Definition effective_counts (num_vars : nat) (num_samples : sample_spec) : list nat :=
  match num_samples with
  | Scalar n => repeat n num_vars
  | Sequence ns => ns
  end.

(** [[np.linspace(b[0], b[1], n) for b, n in pairs]] *)
Definition grid_inputs (pairs : list ((R * R) * nat)) : list (list R) :=
  map (fun bn => linspace (fst (fst bn)) (snd (fst bn)) (snd bn)) pairs.

(** [zip] stops at the shorter of its two arguments, as [combine] does. *)
Definition linearly_spaced_combinations (bounds : list (R * R)) (num_samples : sample_spec)
  : result (Np.ndarray R) :=
  let num_vars := length bounds in
  let num_samples := effective_counts num_vars num_samples in
  let inputs := grid_inputs (combine bounds num_samples) in
  combinations 0 inputs.

(** A sample-count specification fits [d] dimensions: any scalar, or a
    sequence of length [d]. *)
Definition spec_fits (d : nat) (num_samples : sample_spec) : Prop :=
  match num_samples with
  | Scalar _ => True
  | Sequence ns => length ns = d
  end.

(** *** Counts that may be negative

    The counts above are natural numbers.  A Python integer may be negative,
    and [np.linspace] rejects a negative count with [ValueError]; the
    definitions below are the same function with that path. *)

Definition linspace_checked (start stop : R) (num : Z) : result (list R) :=
  if (num <? 0)%Z then Raise "ValueError"
  else Ok (linspace start stop (Z.to_nat num)).

(** A list comprehension: the items are computed in order, and the first
    exception ends it. *)
Fixpoint comprehension (A : Type) (items : list (result A)) : result (list A) :=
  match items with
  | [] => Ok []
  | r :: rest => a <- r ;; l <- comprehension rest ;; Ok (a :: l)
  end.

Inductive int_sample_spec : Type :=
| IntScalar (n : Z)
| IntSequence (ns : list Z).

Definition int_effective_counts (num_vars : nat) (num_samples : int_sample_spec) : list Z :=
  match num_samples with
  | IntScalar n => repeat n num_vars
  | IntSequence ns => ns
  end.

Definition linearly_spaced_combinations_int
           (bounds : list (R * R)) (num_samples : int_sample_spec)
  : result (Np.ndarray R) :=
  let num_vars := length bounds in
  let num_samples := int_effective_counts num_vars num_samples in
  inputs <- comprehension
              (map (fun bn => linspace_checked (fst (fst bn)) (snd (fst bn)) (snd bn))
                   (combine bounds num_samples)) ;;
  combinations 0 inputs.

(** The natural-number specification as a Python one. *)
Definition int_of_spec (num_samples : sample_spec) : int_sample_spec :=
  match num_samples with
  | Scalar n => IntScalar (Z.of_nat n)
  | Sequence ns => IntSequence (map Z.of_nat ns)
  end.

(** ** [lqr] (utilities.py, line 71) *)

(** A 2-d array of floats, by rows. *)
Definition matrix : Type := list (list R).

(** [m.T] *)
Definition transpose (m : matrix) : matrix :=
  map (fun j => map (fun row => nth j row 0) m) (seq 0 (length (hd [] m))).

Definition dot_vec (u v : list R) : R :=
  fold_right Rplus 0 (map (fun p => fst p * snd p) (combine u v)).

(** [a.dot(b)] *)
Definition dot (a b : matrix) : matrix :=
  map (fun row => map (dot_vec row) (transpose b)) a.

(** A square matrix is singular when it sends a non-zero vector to zero. *)
Definition singular (m : matrix) : Prop :=
  exists v : list R,
    length v = length m /\ Exists (fun x => x <> 0) v /\
    Forall (fun row => dot_vec row v = 0) m.

Section Lqr.

(** [scipy.linalg.solve_continuous_are] and [np.linalg.solve]: library
    routines, taken as they are. *)
Variable solve_continuous_are : matrix -> matrix -> matrix -> matrix -> result matrix.
Variable solve : matrix -> matrix -> result matrix.

Definition lqr (A B Q Rm : matrix) : result (matrix * matrix) :=
  P <- solve_continuous_are A B Q Rm ;;
  K <- solve Rm (dot (transpose B) P) ;;
  Ok (K, P).

End Lqr.

(** What NumPy documents of [np.linalg.solve]: [LinAlgError] when the
    coefficient matrix is singular. *)
Definition solve_contract (solve : matrix -> matrix -> result matrix) : Prop :=
  forall Rm X, singular Rm -> solve Rm X = Raise "LinAlgError".

(** The libraries raise exceptions of their own classes only. *)
Definition library_exception (e : string) : Prop :=
  e = "LinAlgError" \/ e = "ValueError".

Definition are_contract
  (care : matrix -> matrix -> matrix -> matrix -> result matrix) : Prop :=
  forall A B Q Rm e, care A B Q Rm = Raise e -> library_exception e.

(** The two library routines on 1x1 systems, in closed form: the solution of
    [r k = x], and the stabilising root of [2 a p - p^2 b^2 / r + q = 0]
    (for [b = 0] the equation is [2 a p + q = 0], and a stabilising solution
    exists only for [a < 0]).  SciPy rejects a singular [r] with
    [ValueError]. *)
Definition solve_1x1 (Rm X : matrix) : result matrix :=
  match Rm with
  | [[r]] => if Req_dec_T r 0 then Raise "LinAlgError"
             else Ok (map (map (fun x => x / r)) X)
  | _ => Raise "LinAlgError"
  end.

Definition care_1x1 (A B Q Rm : matrix) : result matrix :=
  match A, B, Q, Rm with
  | [[a]], [[b]], [[q]], [[r]] =>
      if Req_dec_T r 0 then Raise "ValueError"
      else if Req_dec_T b 0 then
        (if Rlt_dec a 0 then Ok [[- q / (2 * a)]] else Raise "LinAlgError")
      else Ok [[r * (a + sqrt (a * a + b * b * q / r)) / (b * b)]]
  | _, _, _, _ => Raise "ValueError"
  end.

(** ** [ellipse_bounds] (utilities.py, line 97) *)

(** A 2x2 array: [mij] is item [i, j]. *)
Record mat2 : Type := mk_mat2 { m00 : R; m01 : R; m10 : R; m11 : R }.

(** [x' P x] at the point [(x, y)]. *)
Definition quad (P : mat2) (x y : R) : R :=
  x * (m00 P * x + m01 P * y) + y * (m10 P * x + m11 P * y).

Definition symmetric (P : mat2) : Prop := m01 P = m10 P.

Definition positive_definite (P : mat2) : Prop :=
  forall x y, (x <> 0 \/ y <> 0) -> 0 < quad P x y.

(** What [np.linalg.eig] returns for a symmetric matrix: eigenvalues [w] and
    a matrix [v] whose column [i] is a unit eigenvector of eigenvalue [i];
    the two columns are orthogonal. *)
Definition eig_ok (P : mat2) (w : R * R) (v : mat2) : Prop :=
  (m00 P * m00 v + m01 P * m10 v = fst w * m00 v /\
   m10 P * m00 v + m11 P * m10 v = fst w * m10 v) /\
  (m00 P * m01 v + m01 P * m11 v = snd w * m01 v /\
   m10 P * m01 v + m11 P * m11 v = snd w * m11 v) /\
  m00 v * m00 v + m10 v * m10 v = 1 /\
  m01 v * m01 v + m11 v * m11 v = 1 /\
  m00 v * m01 v + m10 v * m11 v = 0.

(** [np.arctan(y / x)] on floats: a division by zero gives an infinity of
    the sign of [y], whose arc tangent is [pi/2] or [-pi/2].  ([0 / 0] is
    not a number; no statement below reads that case.) *)
Definition arctan_quot (y x : R) : R :=
  if Req_dec_T x 0 then (if Rlt_dec 0 y then PI / 2 else - (PI / 2))
  else atan (y / x).

(** [l[:stop:-1]]: from the last item backwards, down to but excluding index
    [stop]; a negative [stop] counts from the end. *)
Definition slice_back (X : Type) (l : list X) (stop : Z) : list X :=
  let len := Z.of_nat (length l) in
  let s := if (stop <? 0)%Z then Z.max (stop + len) (-1) else Z.min stop (len - 1) in
  rev (skipn (Z.to_nat (s + 1)) l).

(** [n += n % 2] *)
Definition round_up_even (n : nat) : nat := (n + n mod 2)%nat.

(** [eigvec *= np.sqrt(level / eigval)]: column [j] is scaled by the square
    root of [level / eigval[j]]. *)
Definition scale_axes (eigval : R * R) (eigvec : mat2) (level : R) : mat2 :=
  let s0 := sqrt (level / fst eigval) in
  let s1 := sqrt (level / snd eigval) in
  {| m00 := m00 eigvec * s0; m01 := m01 eigvec * s1;
     m10 := m10 eigvec * s0; m11 := m11 eigvec * s1 |}.

(** [angle = np.linspace(0, 2 * np.pi, n); angle += np.arctan(...)] *)
Definition ellipse_angle (eigvec : mat2) (n : nat) : list R :=
  map (fun t => t + arctan_quot (m01 eigvec) (m00 eigvec)) (linspace 0 (2 * PI) n).

(** The two coordinates of the point of angle [a]: row [a] of
    [np.cos(angle) * eigvec[:, 0] + np.sin(angle) * eigvec[:, 1]], where
    [eigvec[:, j]] is column [j]. *)
Definition ellipse_x (eigvec : mat2) (a : R) : R :=
  cos a * m00 eigvec + sin a * m01 eigvec.

Definition ellipse_y (eigvec : mat2) (a : R) : R :=
  cos a * m10 eigvec + sin a * m11 eigvec.

(** [pos = np.cos(angle) * eigvec[:, 0] + np.sin(angle) * eigvec[:, 1]] *)
Definition ellipse_pos (eigvec : mat2) (angle : list R) : list (R * R) :=
  map (fun a => (ellipse_x eigvec a, ellipse_y eigvec a)) angle.

(** [l[:stop]] for an integer [stop]: the items before index [stop]; a
    negative [stop] counts from the end. *)
Definition slice_front (X : Type) (l : list X) (stop : Z) : list X :=
  let len := Z.of_nat (length l) in
  let s := if (stop <? 0)%Z then Z.max (stop + len) 0 else Z.min stop len in
  firstn (Z.to_nat s) l.

Section EllipseBounds.

(** [np.linalg.eig], a library routine. *)
Variable eig : mat2 -> result ((R * R) * mat2).

(** NumPy's conversion of a float that is used as a slice bound.  Under
    [from __future__ import division], [n /= 2] makes [n] a float, and the
    three slices of the return statement have float bounds. *)
Variable float_index : R -> result Z.

Definition ellipse_bounds (P : mat2) (level : R) (n : nat)
  : result (list R * list R * list R) :=
  let n := round_up_even n in
  ev <- eig P ;;
  let eigvec := scale_axes (fst ev) (snd ev) level in
  let angle := ellipse_angle eigvec n in
  let pos := ellipse_pos eigvec angle in
  let n := INR n / 2 in
  i <- float_index n ;;
  let x := slice_front (map fst pos) i in
  i' <- float_index n ;;
  let yu := slice_front (map snd pos) i' in
  j <- float_index (n - 1) ;;
  let yl := slice_back (map snd pos) j in
  Ok (x, yu, yl).

End EllipseBounds.

(** NumPy from release 1.12 on: a float is no slice bound. *)
Definition float_index_modern (x : R) : result Z := Raise "TypeError".

(** The integer part of a float, towards zero. *)
Definition truncate (x : R) : Z :=
  if Rle_dec 0 x then Zfloor x else (- Zfloor (- x))%Z.

(** NumPy before release 1.12: a float slice bound is accepted (with a
    deprecation warning) and stands for its integer part. *)
Definition float_index_legacy (x : R) : result Z := Ok (truncate x).

(** What both have in common: a float of integer value, if it is accepted
    at all, stands for that integer; and a refusal is a [TypeError]. *)
Definition float_index_contract (float_index : R -> result Z) : Prop :=
  (forall z i, float_index (IZR z) = Ok i -> i = z) /\
  (forall x e, float_index x = Raise e -> e = "TypeError").

Definition identity2 : mat2 := {| m00 := 1; m01 := 0; m10 := 0; m11 := 1 |}.

(** The eigendecomposition of a diagonal matrix: its diagonal, and the
    identity as eigenvectors. *)
Definition eig_diagonal (P : mat2) : result ((R * R) * mat2) :=
  Ok ((m00 P, m11 P), identity2).

(** The positive definite matrix [[52, 36], [36, 73]] and its
    eigendecomposition as LAPACK's [dgeev] (behind [np.linalg.eig]) reports
    it: eigenvalues 25 and 100, unit eigenvectors [(-0.8, 0.6)] and
    [(-0.6, -0.8)] in the columns. *)
Definition P_tilted : mat2 := {| m00 := 52; m01 := 36; m10 := 36; m11 := 73 |}.

Definition eig_tilted (P : mat2) : result ((R * R) * mat2) :=
  Ok ((25, 100), {| m00 := - (4 / 5); m01 := - (3 / 5); m10 := 3 / 5; m11 := - (4 / 5) |}).

Close Scope R_scope.

(** * Properties *)

Example combinations_2x3 :
  (t <- combinations 0 [[1; 2]; [3; 4; 5]] ;; Ok (Np.shape t, Np.rows t))
  = Ok ([6; 2], [[1; 3]; [1; 4]; [1; 5]; [2; 3]; [2; 4]; [2; 5]]).
Proof. reflexivity. Qed.

Example combinations_3d :
  (t <- combinations 0 [[1; 2]; [3; 4]; [5; 6]] ;; Ok (Np.rows t))
  = Ok [[1; 3; 5]; [1; 4; 5]; [2; 3; 5]; [2; 4; 5];
        [1; 3; 6]; [1; 4; 6]; [2; 3; 6]; [2; 4; 6]].
Proof. reflexivity. Qed.

Example combinations_empty_column :
  (t <- combinations 0 [[1; 2]; []] ;; Ok (Np.shape t, Np.rows t)) = Ok ([0; 2], []).
Proof. reflexivity. Qed.

Example combinations_no_arrays :
  (t <- combinations 0 [] ;; Ok (Np.rows t)) = Raise "ValueError".
Proof. reflexivity. Qed.

(** ** Multi-indices *)

Module NpFacts.
Import Np.

Lemma size_nil : size [] = 1.
Proof. reflexivity. Qed.

Lemma size_cons (n : nat) (s : list nat) : size (n :: s) = n * size s.
Proof. reflexivity. Qed.

Arguments size : simpl never.

Lemma size_app (s t : list nat) : size (s ++ t) = size s * size t.
Proof.
  induction s as [|n s IH]; cbn [app].
  - rewrite size_nil. lia.
  - rewrite !size_cons, IH. lia.
Qed.

Lemma size_rev (s : list nat) : size (rev s) = size s.
Proof.
  induction s as [|n s IH]; cbn [rev]; [reflexivity|].
  rewrite size_app, IH, !size_cons, size_nil. lia.
Qed.

Lemma size_swap01 (s : list nat) : size (swap01 s) = size s.
Proof.
  destruct s as [|a [|b r]]; simpl; try reflexivity.
  rewrite !size_cons. lia.
Qed.

Lemma unravel_length (s : list nat) : forall k, length (unravel s k) = length s.
Proof.
  induction s as [|n s IH]; intros k; simpl; [reflexivity|].
  now rewrite IH.
Qed.

Lemma unravel_bound (s : list nat) :
  forall k, k < size s -> Forall2 lt (unravel s k) s.
Proof.
  induction s as [|n s IH]; intros k Hk; simpl.
  - constructor.
  - rewrite size_cons in Hk.
    assert (Hs : size s <> 0) by (intros E; rewrite E in Hk; lia).
    constructor.
    + apply Nat.Div0.div_lt_upper_bound. lia.
    + apply IH. apply Nat.mod_upper_bound. exact Hs.
Qed.

Lemma ravel_unravel (s : list nat) :
  forall k, k < size s -> ravel s (unravel s k) = k.
Proof.
  induction s as [|n s IH]; intros k Hk; simpl.
  - rewrite size_nil in Hk. lia.
  - rewrite size_cons in Hk.
    assert (Hs : size s <> 0) by (intros E; rewrite E in Hk; lia).
    rewrite IH by (apply Nat.mod_upper_bound; exact Hs).
    pose proof (Nat.div_mod_eq k (size s)). lia.
Qed.

Lemma ravel_bound (s : list nat) :
  forall idx, Forall2 lt idx s -> ravel s idx < size s.
Proof.
  induction s as [|n s IH]; intros idx H; inversion H; subst; simpl.
  - rewrite size_nil. lia.
  - rewrite size_cons. specialize (IH _ H4). nia.
Qed.

Lemma unravel_ravel (s : list nat) :
  forall idx, Forall2 lt idx s -> unravel s (ravel s idx) = idx.
Proof.
  induction s as [|n s IH]; intros idx H; inversion H; subst; simpl.
  - reflexivity.
  - pose proof (ravel_bound H4) as Hb.
    assert (Hd : (x * size s + ravel s l) / size s = x).
    { rewrite Nat.add_comm, Nat.div_add by lia.
      rewrite Nat.div_small by exact Hb. reflexivity. }
    assert (Hm : (x * size s + ravel s l) mod size s = ravel s l).
    { rewrite Nat.add_comm, Nat.Div0.mod_add.
      apply Nat.mod_small. exact Hb. }
    rewrite Hd, Hm, IH by exact H4. reflexivity.
Qed.

(** The last axis of a C-ordered array is the fastest. *)
Lemma unravel_snoc (s : list nat) (d : nat) :
  forall r c, r < size s -> c < d ->
    unravel (s ++ [d]) (r * d + c) = unravel s r ++ [c].
Proof.
  induction s as [|n s IH]; intros r c Hr Hc; cbn [app unravel].
  - rewrite size_nil in *. replace r with 0 by lia.
    rewrite Nat.div_1_r. reflexivity.
  - rewrite size_app, size_cons, size_nil, Nat.mul_1_r.
    rewrite size_cons in Hr.
    assert (E : size s <> 0) by (intros E; rewrite E in Hr; lia).
    assert (Hd : (r * d + c) / (size s * d) = r / size s).
    { rewrite (Nat.mul_comm (size s) d), <- Nat.Div0.div_div.
      rewrite Nat.div_add_l by lia. rewrite (Nat.div_small c d) by exact Hc.
      now rewrite Nat.add_0_r. }
    assert (Hm : (r * d + c) mod (size s * d) = (r mod size s) * d + c).
    { pose proof (Nat.div_mod_eq (r * d + c) (size s * d)) as H1.
      rewrite Hd in H1.
      pose proof (Nat.div_mod_eq r (size s)) as H2.
      nia. }
    rewrite Hd, Hm, IH; [reflexivity | | exact Hc].
    apply Nat.mod_upper_bound. exact E.
Qed.

End NpFacts.

(** ** Tuples and multi-indices *)

Section PickFacts.

Variable A : Type.
Variable dflt : A.

Lemma Forall2_swap01 (X Y : Type) (P : X -> Y -> Prop) (l : list X) (m : list Y) :
  Forall2 P l m -> Forall2 P (Np.swap01 l) (Np.swap01 m).
Proof.
  intros H. destruct H as [|x y l m Hxy H]; simpl; [constructor|].
  destruct H as [|x' y' l m Hxy' H]; simpl; repeat constructor; assumption.
Qed.

Lemma swap01_involutive (X : Type) (l : list X) : Np.swap01 (Np.swap01 l) = l.
Proof. destruct l as [|a [|b r]]; reflexivity. Qed.

Lemma swap01_length (X : Type) (l : list X) : length (Np.swap01 l) = length l.
Proof. destruct l as [|a [|b r]]; reflexivity. Qed.

Lemma swap01_map (X Y : Type) (f : X -> Y) (l : list X) :
  Np.swap01 (map f l) = map f (Np.swap01 l).
Proof. destruct l as [|a [|b r]]; reflexivity. Qed.

Lemma Forall2_rev (X Y : Type) (P : X -> Y -> Prop) (l : list X) (m : list Y) :
  Forall2 P l m -> Forall2 P (rev l) (rev m).
Proof.
  induction 1 as [|x y l m Hxy H IH]; simpl; [constructor|].
  apply Forall2_app; [exact IH | repeat constructor; exact Hxy].
Qed.

Lemma all_idx_spec (s : list nat) :
  forall idx, In idx (all_idx s) <-> Forall2 lt idx s.
Proof.
  induction s as [|n s IH]; intros idx; simpl.
  - split.
    + intros [<-|[]]. constructor.
    + intros H. inversion H. now left.
  - rewrite in_flat_map. split.
    + intros (i & Hi & Hin). apply in_map_iff in Hin as (idx' & <- & Hin).
      apply in_seq in Hi. constructor; [lia | now apply IH].
    + intros H. inversion H as [|i n' idx' s' Hi Hrest]; subst.
      exists i. split; [apply in_seq; lia|].
      apply in_map. now apply IH.
Qed.

Lemma NoDup_flat_map_cons (X : Type) (l : list X) (tails : list (list X)) :
  NoDup l -> NoDup tails ->
  NoDup (flat_map (fun v => map (cons v) tails) l).
Proof.
  intros Hl Ht. induction Hl as [|v l Hv Hl IH]; simpl; [constructor|].
  apply NoDup_app.
  - apply Finite.Injective_map_NoDup; [|exact Ht].
    intros a b E. now inversion E.
  - exact IH.
  - intros t Hin1 Hin2.
    apply in_map_iff in Hin1 as (t1 & <- & _).
    apply in_flat_map in Hin2 as (w & Hw & Hin2).
    apply in_map_iff in Hin2 as (t2 & E & _).
    inversion E; subst. contradiction.
Qed.

Lemma all_idx_NoDup (s : list nat) : NoDup (all_idx s).
Proof.
  induction s as [|n s IH]; simpl.
  - repeat constructor. intros [].
  - apply NoDup_flat_map_cons; [apply seq_NoDup | exact IH].
Qed.

Lemma list_as_nth (x : list A) :
  x = map (fun i => nth i x dflt) (seq 0 (length x)).
Proof.
  induction x as [|a x IH]; simpl; [reflexivity|].
  f_equal. rewrite <- seq_shift, map_map. exact IH.
Qed.

(** The Cartesian product is the tuples picked by the in-range
    multi-indices, in C order. *)
Lemma cartesian_pick (arrays : list (list A)) :
  cartesian arrays = map (pick dflt arrays) (all_idx (map (@length A) arrays)).
Proof.
  induction arrays as [|x rest IH]; simpl; [reflexivity|].
  rewrite IH.
  rewrite (list_as_nth x) at 1.
  generalize (seq 0 (length x)) as ks.
  induction ks as [|i ks IHks]; simpl; [reflexivity|].
  rewrite map_app, IHks, !map_map. reflexivity.
Qed.

Lemma pick_as_nth (arrays : list (list A)) :
  forall idx, length idx = length arrays ->
    pick dflt arrays idx
    = map (fun c => nth (nth c idx 0) (nth c arrays []) dflt) (seq 0 (length arrays)).
Proof.
  induction arrays as [|x rest IH]; intros idx Hlen; simpl.
  - reflexivity.
  - destruct idx as [|i idx]; [discriminate|]. simpl in Hlen.
    simpl. f_equal. rewrite <- seq_shift, map_map. apply IH. lia.
Qed.

Lemma mesh_axis_swap01 (idx : list nat) (c : nat) :
  nth (Np.mesh_axis (length idx) c) idx 0 = nth c (Np.swap01 idx) 0.
Proof.
  unfold Np.mesh_axis.
  destruct idx as [|a [|b r]]; simpl; try reflexivity.
  destruct c as [|[|c]]; reflexivity.
Qed.

End PickFacts.

(** ** The table of [combinations] *)

Section CombinationsFacts.

Variable A : Type.
Variable dflt : A.

(** Stacking arrays of one shape, transposing and reshaping to
    [len(arrs)] columns: row [r], column [c] is array [c] at the reversed
    C-order multi-index of [r] in the reversed shape. *)
Lemma reshape_T_array (a0 : Np.ndarray A) (tl : list (Np.ndarray A)) :
  let arrs := a0 :: tl in
  let s := Np.shape a0 in
  exists t,
    Np.reshape_rows (Np.T (Np.array dflt arrs)) (length arrs) = Ok t /\
    Np.shape t = [Np.size s; length arrs] /\
    forall r c, r < Np.size s -> c < length arrs ->
      Np.item t [r; c] = Np.item (nth c arrs a0) (rev (Np.unravel (rev s) r)).
Proof.
  intros arrs s.
  assert (Hsz : Np.size (Np.shape (Np.T (Np.array dflt arrs))) = Np.size s * length arrs).
  { unfold arrs. cbn [Np.array Np.T Np.shape rev].
    rewrite NpFacts.size_app, NpFacts.size_rev, NpFacts.size_cons, NpFacts.size_nil.
    fold s. lia. }
  unfold Np.reshape_rows. rewrite Hsz.
  assert (Hd : length arrs <> 0) by (unfold arrs; simpl; lia).
  rewrite Nat.Div0.mod_mul, Nat.div_mul by exact Hd.
  apply Nat.eqb_neq in Hd. rewrite Hd. cbn [orb negb Nat.eqb].
  eexists. split; [reflexivity|]. split; [reflexivity|].
  intros r c Hr Hc. cbn [Np.item].
  replace (Np.ravel [Np.size s; length arrs] [r; c]) with (r * length arrs + c).
  2:{ cbn [Np.ravel]. rewrite NpFacts.size_cons, !NpFacts.size_nil. lia. }
  unfold arrs at 1. cbn [Np.array Np.T Np.shape Np.item]. fold arrs.
  replace (rev (Np.shape (Np.array dflt arrs))) with (rev s ++ [length arrs])
    by reflexivity.
  rewrite NpFacts.unravel_snoc by (rewrite ?NpFacts.size_rev; assumption).
  rewrite rev_app_distr. reflexivity.
Qed.

Lemma meshgrid_length (arrays : list (list A)) :
  length (Np.meshgrid dflt arrays) = length arrays.
Proof. unfold Np.meshgrid. now rewrite length_map, length_seq. Qed.

Lemma meshgrid_nth (arrays : list (list A)) (a0 : Np.ndarray A) (c : nat) :
  c < length arrays ->
  nth c (Np.meshgrid dflt arrays) a0
  = {| Np.shape := Np.swap01 (map (@length A) arrays);
       Np.item := fun idx =>
         nth (nth (Np.mesh_axis (length arrays) c) idx 0) (nth c arrays []) dflt |}.
Proof.
  intros Hc. unfold Np.meshgrid.
  set (f := fun i : nat => _).
  rewrite (nth_indep _ a0 (f 0)) by now rewrite length_map, length_seq.
  rewrite (map_nth f), seq_nth by exact Hc. reflexivity.
Qed.

(** The result of [combinations] on at least one array: a table of
    [prod lens] rows and [len(arrays)] columns, whose row [r] is the tuple
    picked by [row_index lens r]. *)
Lemma combinations_table (arrays : list (list A)) :
  arrays <> [] ->
  let lens := map (@length A) arrays in
  exists t,
    combinations dflt arrays = Ok t /\
    Np.shape t = [Np.size lens; length arrays] /\
    Np.rows t = map (fun r => pick dflt arrays (row_index lens r)) (seq 0 (Np.size lens)).
Proof.
  intros Hne lens.
  assert (Hd : 0 < length arrays) by (destruct arrays; [congruence | simpl; lia]).
  unfold combinations.
  destruct (Np.meshgrid dflt arrays) as [|a0 tl] eqn:Hm.
  { apply (f_equal (@length _)) in Hm. rewrite meshgrid_length in Hm. simpl in Hm. lia. }
  assert (Hlen : length (a0 :: tl) = length arrays) by (rewrite <- Hm; apply meshgrid_length).
  assert (Ha0 : Np.shape a0 = Np.swap01 lens).
  { change a0 with (nth 0 (a0 :: tl) a0). rewrite <- Hm.
    rewrite meshgrid_nth by exact Hd. reflexivity. }
  destruct (reshape_T_array a0 tl) as (t & Ht & Hshape & Hitem).
  rewrite Hlen in Ht, Hshape, Hitem. rewrite Ha0, NpFacts.size_swap01 in Hshape, Hitem.
  exists t. split; [exact Ht|]. split; [exact Hshape|].
  unfold Np.rows. rewrite Hshape.
  apply map_ext_in. intros r Hr. apply in_seq in Hr.
  assert (Hlr : length (row_index lens r) = length arrays).
  { unfold row_index.
    rewrite swap01_length, length_rev, NpFacts.unravel_length, length_rev, swap01_length.
    unfold lens. apply length_map. }
  rewrite pick_as_nth by exact Hlr.
  apply map_ext_in. intros c Hc. apply in_seq in Hc.
  rewrite Hitem by lia. rewrite <- Hm, meshgrid_nth by lia. cbn [Np.item].
  unfold row_index in *. rewrite swap01_length in Hlr.
  rewrite <- Hlr at 1. rewrite mesh_axis_swap01. reflexivity.
Qed.

End CombinationsFacts.

(** ** [combinations] enumerates the Cartesian product *)

Section CartesianFacts.

Variable A : Type.
Variable dflt : A.

Lemma row_index_bound (lens : list nat) (r : nat) :
  r < Np.size lens -> Forall2 lt (row_index lens r) lens.
Proof.
  intros Hr. unfold row_index.
  rewrite <- (swap01_involutive lens) at 2. apply Forall2_swap01.
  rewrite <- (rev_involutive (Np.swap01 lens)) at 2. apply Forall2_rev.
  apply NpFacts.unravel_bound.
  now rewrite NpFacts.size_rev, NpFacts.size_swap01.
Qed.

Lemma row_index_ravel (lens : list nat) (r : nat) :
  r < Np.size lens ->
  Np.ravel (rev (Np.swap01 lens)) (rev (Np.swap01 (row_index lens r))) = r.
Proof.
  intros Hr. unfold row_index.
  rewrite swap01_involutive, rev_involutive.
  apply NpFacts.ravel_unravel.
  now rewrite NpFacts.size_rev, NpFacts.size_swap01.
Qed.

Lemma row_index_onto (lens idx : list nat) :
  Forall2 lt idx lens ->
  exists r, r < Np.size lens /\ row_index lens r = idx.
Proof.
  intros H.
  assert (H' : Forall2 lt (rev (Np.swap01 idx)) (rev (Np.swap01 lens)))
    by now apply Forall2_rev, Forall2_swap01.
  exists (Np.ravel (rev (Np.swap01 lens)) (rev (Np.swap01 idx))). split.
  - rewrite <- (NpFacts.size_swap01 lens), <- NpFacts.size_rev.
    now apply NpFacts.ravel_bound.
  - unfold row_index. rewrite NpFacts.unravel_ravel by exact H'.
    now rewrite rev_involutive, swap01_involutive.
Qed.

(** The rows of the table are indexed by a rearrangement of all the
    in-range multi-indices. *)
Lemma row_indices_permutation (lens : list nat) :
  Permutation (map (row_index lens) (seq 0 (Np.size lens))) (all_idx lens).
Proof.
  apply NoDup_Permutation.
  - apply Finite.Injective_map_NoDup_in; [|apply seq_NoDup].
    intros r1 r2 H1 H2 E. apply in_seq in H1, H2.
    rewrite <- (@row_index_ravel lens r1), <- (@row_index_ravel lens r2) by lia.
    now rewrite E.
  - apply all_idx_NoDup.
  - intros idx. rewrite all_idx_spec, in_map_iff. split.
    + intros (r & <- & Hr). apply in_seq in Hr. apply row_index_bound. lia.
    + intros H. destruct (row_index_onto H) as (r & Hr & E).
      exists r. split; [exact E | apply in_seq; lia].
Qed.

Lemma in_cartesian (arrays : list (list A)) :
  forall row, In row (cartesian arrays) <-> Forall2 (fun v x => In v x) row arrays.
Proof.
  induction arrays as [|x rest IH]; intros row; simpl.
  - split.
    + intros [<-|[]]. constructor.
    + intros H. inversion H. now left.
  - rewrite in_flat_map. split.
    + intros (v & Hv & Hin). apply in_map_iff in Hin as (row' & <- & Hin).
      constructor; [exact Hv | now apply IH].
    + intros H. inversion H as [|v x' row' rest' Hv Hrest]; subst.
      exists v. split; [exact Hv|]. apply in_map. now apply IH.
Qed.

Lemma cartesian_length (arrays : list (list A)) :
  length (cartesian arrays) = Np.size (map (@length A) arrays).
Proof.
  induction arrays as [|x rest IH]; simpl; [reflexivity|].
  rewrite NpFacts.size_cons, <- IH.
  induction x as [|v x IHx]; simpl; [reflexivity|].
  rewrite length_app, length_map, IHx. reflexivity.
Qed.

Lemma cartesian_NoDup (arrays : list (list A)) :
  Forall (@NoDup A) arrays -> NoDup (cartesian arrays).
Proof.
  induction 1 as [|x rest Hx Hrest IH]; simpl.
  - repeat constructor. intros [].
  - now apply NoDup_flat_map_cons.
Qed.

Lemma size_zero (s : list nat) : In 0 s -> Np.size s = 0.
Proof.
  induction s as [|n s IH]; intros H; [destruct H|].
  rewrite NpFacts.size_cons. destruct H as [->|H]; [reflexivity|].
  rewrite IH by exact H. lia.
Qed.

Lemma combinations_rows_permutation (arrays : list (list A)) (t : Np.ndarray A) :
  combinations dflt arrays = Ok t -> arrays <> [] ->
  Permutation (Np.rows t) (cartesian arrays).
Proof.
  intros Ht Hne.
  destruct (combinations_table dflt Hne) as (t' & Ht' & _ & Hrows).
  rewrite Ht in Ht'. injection Ht' as <-.
  rewrite Hrows, (cartesian_pick dflt), <- (map_map (row_index _) (pick dflt arrays)).
  apply Permutation_map, row_indices_permutation.
Qed.

End CartesianFacts.

(** The table of [combinations] on at least one array, and its rows as a
    set: the tuples that take one item of each array. *)
Lemma combinations_members (A : Type) (dflt : A) (arrays : list (list A)) :
  arrays <> [] ->
  exists t,
    combinations dflt arrays = Ok t /\
    Np.shape t = [Np.size (map (@length A) arrays); length arrays] /\
    length (Np.rows t) = Np.size (map (@length A) arrays) /\
    (forall row, In row (Np.rows t) <-> Forall2 (fun v x => In v x) row arrays).
Proof.
  intros Hne.
  destruct (combinations_table dflt Hne) as (t & Ht & Hshape & Hrows).
  pose proof (@combinations_rows_permutation A dflt arrays t Ht Hne) as Hperm.
  exists t. split; [exact Ht|]. split; [exact Hshape|]. split.
  - rewrite Hrows, length_map, length_seq. reflexivity.
  - intros row. rewrite <- in_cartesian. split; apply Permutation_in.
    + exact Hperm.
    + now apply Permutation_sym.
Qed.

(** C2: for [d >= 1] coordinate arrays of lengths [n1, ..., nd] (0 and 1
    included), [combinations] returns a table of [n1 * ... * nd] rows and [d]
    columns whose rows are exactly the Cartesian product of the arrays: a
    row occurs in the table if and only if it chooses one element per array,
    the table is a rearrangement of the product (each choice exactly once),
    and it has no duplicate row when the arrays have no duplicate item; an
    empty array gives 0 rows and [d] columns, and a single array comes back
    as a single column. *)
Theorem combinations_cartesian_product (A : Type) (dflt : A) (arrays : list (list A)) :
  1 <= length arrays ->
  exists t,
    combinations dflt arrays = Ok t /\
    Np.shape t = [fold_right Nat.mul 1 (map (@length A) arrays); length arrays] /\
    length (Np.rows t) = fold_right Nat.mul 1 (map (@length A) arrays) /\
    Forall (fun row => length row = length arrays) (Np.rows t) /\
    (forall row, In row (Np.rows t) <-> Forall2 (fun v x => In v x) row arrays) /\
    Permutation (Np.rows t) (cartesian arrays) /\
    (Forall (@NoDup A) arrays -> NoDup (Np.rows t)) /\
    (In [] arrays -> Np.shape t = [0; length arrays] /\ Np.rows t = []) /\
    (forall x, arrays = [x] -> Np.rows t = map (fun v => [v]) x).
Proof.
  intros Hd.
  assert (Hne : arrays <> []) by (intros ->; simpl in Hd; lia).
  destruct (combinations_table dflt Hne) as (t & Ht & Hshape & Hrows).
  pose proof (@combinations_rows_permutation A dflt arrays t Ht Hne) as Hperm.
  assert (Hin : forall row, In row (Np.rows t) <-> Forall2 (fun v x => In v x) row arrays).
  { intros row. rewrite <- in_cartesian. split; apply Permutation_in.
    - exact Hperm.
    - now apply Permutation_sym. }
  exists t. repeat split.
  - exact Ht.
  - exact Hshape.
  - rewrite Hrows, length_map, length_seq. reflexivity.
  - apply Forall_forall. intros row Hrow. apply Hin in Hrow.
    eapply Forall2_length. exact Hrow.
  - apply Hin.
  - apply Hin.
  - exact Hperm.
  - intros Hnd. apply (Permutation_NoDup (Permutation_sym Hperm)).
    now apply cartesian_NoDup.
  - rewrite Hshape. f_equal. apply size_zero.
    apply in_map_iff. exists []. split; [reflexivity | assumption].
  - rewrite Hrows.
    replace (Np.size (map (@length A) arrays)) with 0; [reflexivity|].
    symmetry. apply size_zero.
    apply in_map_iff. exists []. split; [reflexivity | assumption].
  - intros x ->. rewrite Hrows. cbn [map length].
    rewrite NpFacts.size_cons, NpFacts.size_nil, Nat.mul_1_r.
    transitivity (map (fun v => [v]) (map (fun i => nth i x dflt) (seq 0 (length x)))).
    + rewrite map_map. apply map_ext. intros r. unfold row_index. cbn.
      rewrite Nat.div_1_r. reflexivity.
    + f_equal. symmetry. apply list_as_nth.
Qed.


(** The table of three arrays of lengths 2, 0 and 1 has shape (0, 3). *)
Lemma combinations_cartesian_product_witness :
  exists t, combinations 0 [[1; 2]; []; [3]] = Ok t /\ Np.shape t = [0; 3].
Proof.
  destruct (@combinations_cartesian_product nat 0 [[1; 2]; []; [3]])
    as (t & Ht & Hshape & _).
  - simpl. lia.
  - exists t. split; [exact Ht | exact Hshape].
Defined.

(** C10: for two arrays [x] (length [n1]) and [y] (length [n2]), the rows
    come in a fixed order in which the first coordinate varies slowest: row
    number [i1 * n2 + i2] is the pair [(x[i1], y[i2])]. *)
Theorem combinations_pair_row_order (A : Type) (dflt : A) (x y : list A) (i1 i2 : nat) :
  i1 < length x -> i2 < length y ->
  exists t,
    combinations dflt [x; y] = Ok t /\
    nth_error (Np.rows t) (i1 * length y + i2) = Some [nth i1 x dflt; nth i2 y dflt].
Proof.
  intros H1 H2.
  destruct (@combinations_table A dflt [x; y]) as (t & Ht & _ & Hrows);
    [discriminate|].
  exists t. split; [exact Ht|].
  cbn [map] in Hrows. rewrite Hrows.
  assert (Hsize : Np.size [length x; length y] = length x * length y).
  { rewrite !NpFacts.size_cons, NpFacts.size_nil. lia. }
  assert (Hr : i1 * length y + i2 < length x * length y) by nia.
  rewrite Hsize.
  rewrite nth_error_map, nth_error_seq.
  destruct (Nat.ltb_spec (i1 * length y + i2) (length x * length y)) as [_|]; [|lia].
  cbn [option_map Nat.add]. f_equal.
  assert (Hidx : Np.unravel [length x; length y] (i1 * length y + i2) = [i1; i2]).
  { replace (i1 * length y + i2) with (Np.ravel [length x; length y] [i1; i2]).
    - apply NpFacts.unravel_ravel. repeat constructor; assumption.
    - cbn [Np.ravel]. rewrite !NpFacts.size_cons, NpFacts.size_nil. lia. }
  unfold row_index. cbn [Np.swap01 rev app]. rewrite Hidx. reflexivity.
Qed.

(** Row [1 * 3 + 2] of the table of [[10; 20]] and [[1; 2; 3]] is [(20, 3)]. *)
Lemma combinations_pair_row_order_witness :
  exists t,
    combinations 0 [[10; 20]; [1; 2; 3]] = Ok t /\
    nth_error (Np.rows t) 5 = Some [20; 3].
Proof.
  apply (@combinations_pair_row_order nat 0 [10; 20] [1; 2; 3] 1 2); simpl; lia.
Defined.

(** ** [linspace] *)

Open Scope R_scope.

Lemma removelast_map_seq (X : Type) (f : nat -> X) (m : nat) :
  removelast (map f (seq 0 (S m))) = map f (seq 0 m).
Proof. rewrite seq_S, map_app. cbn [map]. apply removelast_last. Qed.

Lemma linspace_0 (start stop : R) : linspace start stop 0 = [].
Proof. reflexivity. Qed.

(** A single sample is the lower end. *)
Lemma linspace_1 (start stop : R) : linspace start stop 1 = [start].
Proof. unfold linspace. cbn. f_equal. lra. Qed.

Lemma linspace_many (start stop : R) (m : nat) :
  linspace start stop (S (S m))
  = map (fun k => INR k * ((stop - start) / INR (S m)) + start) (seq 0 (S m)) ++ [stop].
Proof.
  unfold linspace. cbn [Nat.leb]. rewrite removelast_map_seq.
  replace (S (S m) - 1)%nat with (S m) by lia. reflexivity.
Qed.

Lemma linspace_length (start stop : R) (num : nat) :
  length (linspace start stop num) = num.
Proof.
  destruct num as [|[|m]].
  - reflexivity.
  - reflexivity.
  - rewrite linspace_many, length_app, length_map, length_seq. simpl. lia.
Qed.

(** In exact arithmetic the item that is set to [stop] is also the last
    item of the arithmetic progression: all the items are [start + k step]. *)
Lemma linspace_nth (start stop : R) (num k : nat) :
  (k < num)%nat ->
  nth k (linspace start stop num) 0
  = start + INR k * ((stop - start) / INR (num - 1)).
Proof.
  intros Hk. destruct num as [|[|m]].
  - lia.
  - replace k with 0%nat by lia. rewrite linspace_1. simpl. lra.
  - rewrite linspace_many. replace (S (S m) - 1)%nat with (S m) by lia.
    assert (Hm : INR (S m) <> 0) by (apply not_0_INR; lia).
    destruct (Nat.eq_dec k (S m)) as [->|Hne].
    + rewrite app_nth2; rewrite length_map, length_seq; [|lia].
      rewrite Nat.sub_diag. simpl nth. field. exact Hm.
    + rewrite app_nth1 by (rewrite length_map, length_seq; lia).
      set (f := fun k : nat => INR k * ((stop - start) / INR (S m)) + start).
      rewrite (nth_indep _ 0 (f 0%nat)) by (rewrite length_map, length_seq; lia).
      rewrite (map_nth f), seq_nth by lia. unfold f. simpl Nat.add. lra.
Qed.

(** Every sample lies between the two ends. *)
Lemma linspace_bounds (start stop : R) (num : nat) (v : R) :
  start <= stop -> In v (linspace start stop num) -> start <= v <= stop.
Proof.
  intros Hle Hin.
  destruct (In_nth _ _ 0 Hin) as (k & Hk & <-).
  rewrite linspace_length in Hk. rewrite linspace_nth by exact Hk.
  destruct (Nat.eq_dec num 1) as [->|Hn1].
  - replace k with 0%nat by lia. simpl. lra.
  - assert (Hpos : 0 < INR (num - 1)) by (apply lt_0_INR; lia).
    assert (Hk0 : 0 <= INR k) by apply pos_INR.
    assert (Hkn : INR k <= INR (num - 1)) by (apply le_INR; lia).
    assert (Hstep : 0 <= (stop - start) / INR (num - 1)).
    { apply Rmult_le_pos; [lra | left; now apply Rinv_0_lt_compat]. }
    assert (Hfull : INR (num - 1) * ((stop - start) / INR (num - 1)) = stop - start)
      by (field; lra).
    split; nra.
Qed.

Close Scope R_scope.

(** ** The grid of [linearly_spaced_combinations] *)

Open Scope R_scope.

Lemma Forall2_nth_error_r (X Y : Type) (P : X -> Y -> Prop) (l : list X) (m : list Y) :
  Forall2 P l m ->
  forall i y, nth_error m i = Some y -> exists x, nth_error l i = Some x /\ P x y.
Proof.
  induction 1 as [|x y l m Hxy H IH]; intros i y' Hi.
  - destruct i; discriminate.
  - destruct i as [|i]; simpl in *.
    + injection Hi as <-. now exists x.
    + now apply IH.
Qed.

Lemma Forall2_map_right (X Y Z : Type) (P : X -> Z -> Prop) (f : Y -> Z)
      (l : list X) (m : list Y) :
  Forall2 P l (map f m) <-> Forall2 (fun x y => P x (f y)) l m.
Proof.
  revert l. induction m as [|y m IH]; intros l; simpl.
  - split; intros H; inversion H; constructor.
  - split; intros H; inversion H; subst; constructor; try assumption; now apply IH.
Qed.

Lemma Forall2_impl_in_r (X Y : Type) (P Q : X -> Y -> Prop) (l : list X) (m : list Y) :
  Forall (fun y => forall x, P x y -> Q x y) m -> Forall2 P l m -> Forall2 Q l m.
Proof.
  intros HF H. induction H as [|x y l m Hxy H IH]; constructor.
  - inversion HF; subst. auto.
  - apply IH. now inversion HF.
Qed.

Lemma combine_fst (X Y : Type) (l : list X) (m : list Y) :
  length l = length m -> map fst (combine l m) = l.
Proof.
  revert m. induction l as [|x l IH]; intros [|y m] H; simpl in *;
    try reflexivity; try discriminate.
  f_equal. apply IH. lia.
Qed.

Lemma combine_snd (X Y : Type) (l : list X) (m : list Y) :
  length l = length m -> map snd (combine l m) = m.
Proof.
  revert m. induction l as [|x l IH]; intros [|y m] H; simpl in *;
    try reflexivity; try discriminate.
  f_equal. apply IH. lia.
Qed.

Lemma nth_error_combine (X Y : Type) (l : list X) (m : list Y) (i : nat) (x : X) (y : Y) :
  nth_error l i = Some x -> nth_error m i = Some y ->
  nth_error (combine l m) i = Some (x, y).
Proof.
  revert m i. induction l as [|x0 l IH]; intros [|y0 m] [|i] Hx Hy;
    simpl in *; try discriminate.
  - now injection Hx as ->; injection Hy as ->.
  - now apply IH.
Qed.

Lemma combine_truncate (X Y : Type) (l : list X) (m : list Y) :
  let k := Nat.min (length l) (length m) in
  combine l m = combine (firstn k l) (firstn k m).
Proof.
  revert m. induction l as [|x l IH]; intros [|y m]; simpl; try reflexivity.
  f_equal. apply IH.
Qed.

Lemma grid_inputs_lengths (pairs : list ((R * R) * nat)) :
  map (@length R) (grid_inputs pairs) = map snd pairs.
Proof.
  unfold grid_inputs. rewrite map_map. apply map_ext.
  intros p. apply linspace_length.
Qed.

Lemma grid_of_pairs (pairs : list ((R * R) * nat)) :
  pairs <> [] ->
  exists t,
    combinations 0 (grid_inputs pairs) = Ok t /\
    Np.shape t = [Np.size (map snd pairs); length pairs] /\
    length (Np.rows t) = Np.size (map snd pairs) /\
    (Forall (fun p => fst (fst p) <= snd (fst p)) pairs ->
     forall row, In row (Np.rows t) ->
       Forall2 (fun v p => fst (fst p) <= v <= snd (fst p)) row pairs) /\
    (forall i p, nth_error pairs i = Some p -> snd p = 1%nat ->
     forall row, In row (Np.rows t) -> nth_error row i = Some (fst (fst p))).
Proof.
  intros Hne.
  assert (Hlen : length (grid_inputs pairs) = length pairs)
    by (unfold grid_inputs; apply length_map).
  destruct (@combinations_members R 0 (grid_inputs pairs))
    as (t & Ht & Hshape & Hrows & Hin).
  { destruct pairs; [congruence | discriminate]. }
  rewrite grid_inputs_lengths, Hlen in Hshape. rewrite grid_inputs_lengths in Hrows.
  exists t. repeat split; try assumption.
  - intros Hle row Hrow. apply Hin in Hrow.
    apply (proj1 (Forall2_map_right (fun v x => In v x) _ row pairs)) in Hrow.
    cbv beta in Hrow. revert Hrow. apply Forall2_impl_in_r.
    rewrite Forall_forall in *. intros p Hp v Hv.
    exact (@linspace_bounds _ _ _ _ (Hle p Hp) Hv).
  - intros i p Hi Hone row Hrow. apply Hin in Hrow.
    apply (proj1 (Forall2_map_right (fun v x => In v x) _ row pairs)) in Hrow.
    destruct (Forall2_nth_error_r Hrow _ Hi) as (v & Hv & Hvin).
    cbv beta in Hvin. rewrite Hone, linspace_1 in Hvin. destruct Hvin as [<-|[]]. exact Hv.
Qed.

Lemma effective_counts_length (d : nat) (num_samples : sample_spec) :
  spec_fits d num_samples -> length (effective_counts d num_samples) = d.
Proof.
  destruct num_samples as [n|ns]; simpl; intros H.
  - apply repeat_length.
  - exact H.
Qed.

Close Scope R_scope.

Open Scope R_scope.

(** C3, as stated, at no dimension at all: with an empty bounds list the
    product of the counts is 1, yet no table comes back; [reshape(-1, 0)]
    raises [ValueError]. *)
Lemma linearly_spaced_combinations_no_dimension :
  Forall (fun b : R * R => fst b <= snd b) [] /\
  spec_fits (length (@nil (R * R))) (Scalar 1) /\
  fold_right Nat.mul 1%nat (effective_counts 0 (Scalar 1)) = 1%nat /\
  linearly_spaced_combinations [] (Scalar 1) = Raise "ValueError".
Proof. repeat split. constructor. Qed.

(** C3 (amended): for every non-empty bounds list (each pair with
    [min <= max]) and every sample-count specification that fits it, the
    function returns a table whose row count is the product of the effective
    per-dimension counts, with one column per dimension; in exact
    arithmetic (each float read as the real number it denotes, so apart
    from rounding and from an overflow of [max - min]), every value of
    column [i] lies within the closed interval of dimension [i], and where
    the count of dimension [i] is 1, column [i] holds the lower bound. *)
Theorem linearly_spaced_combinations_grid
        (bounds : list (R * R)) (num_samples : sample_spec) :
  (1 <= length bounds)%nat ->
  Forall (fun b => fst b <= snd b) bounds ->
  spec_fits (length bounds) num_samples ->
  let counts := effective_counts (length bounds) num_samples in
  exists t,
    linearly_spaced_combinations bounds num_samples = Ok t /\
    Np.shape t = [fold_right Nat.mul 1%nat counts; length bounds] /\
    length (Np.rows t) = fold_right Nat.mul 1%nat counts /\
    (forall row, In row (Np.rows t) ->
       Forall2 (fun v b => fst b <= v <= snd b) row bounds) /\
    (forall i b, nth_error bounds i = Some b -> nth_error counts i = Some 1%nat ->
       forall row, In row (Np.rows t) -> nth_error row i = Some (fst b)).
Proof.
  intros Hd Hle Hfit counts.
  assert (Hlen : length bounds = length counts)
    by (symmetry; now apply effective_counts_length).
  destruct (@grid_of_pairs (combine bounds counts))
    as (t & Ht & Hshape & Hrows & Hbnd & Hone).
  { destruct bounds as [|b bs]; [simpl in Hd; lia|].
    destruct counts as [|c cs]; [discriminate | discriminate]. }
  rewrite (combine_snd _ _ Hlen) in Hshape, Hrows.
  rewrite length_combine, <- Hlen, Nat.min_id in Hshape.
  exists t. repeat split; try assumption.
  - intros row Hrow.
    rewrite <- (combine_fst _ _ Hlen).
    apply Forall2_map_right. apply Hbnd; [|exact Hrow].
    apply Forall_forall. intros [b n] Hp. apply in_combine_l in Hp.
    rewrite Forall_forall in Hle. exact (Hle b Hp).
  - intros i b Hb Hc row Hrow.
    apply (Hone i (b, 1%nat)); [|reflexivity|exact Hrow].
    now apply nth_error_combine.
Qed.

(** Two dimensions, three samples of [0, 1] and a single sample of [2, 5]. *)
Lemma linearly_spaced_combinations_grid_witness :
  exists t,
    linearly_spaced_combinations [(0, 1); (2, 5)] (Sequence [3%nat; 1%nat]) = Ok t /\
    Np.shape t = [3%nat; 2%nat] /\
    (forall row, In row (Np.rows t) -> nth_error row 1 = Some 2).
Proof.
  destruct (@linearly_spaced_combinations_grid [(0, 1); (2, 5)] (Sequence [3%nat; 1%nat]))
    as (t & Ht & Hshape & _ & _ & Hone).
  - simpl. lia.
  - repeat constructor; simpl; lra.
  - reflexivity.
  - exists t. split; [exact Ht|]. split; [exact Hshape|].
    intros row Hrow. exact (Hone 1%nat (2, 5) eq_refl eq_refl row Hrow).
Defined.

(** C6, as stated, on one dimension and a sequence of two counts: no
    exception at all; the surplus count is dropped and the grid of the
    first dimension comes back. *)
Lemma linearly_spaced_combinations_length_mismatch :
  length [2%nat; 3%nat] <> length [(0, 1)] /\
  linearly_spaced_combinations [(0, 1)] (Sequence [2%nat; 3%nat])
    <> Raise "ConfigurationError" /\
  exists t,
    linearly_spaced_combinations [(0, 1)] (Sequence [2%nat; 3%nat]) = Ok t /\
    Np.shape t = [2%nat; 1%nat].
Proof.
  split; [simpl; lia|].
  destruct (@grid_of_pairs [((0, 1), 2%nat)]) as (t & Ht & Hshape & _);
    [discriminate|].
  split.
  - unfold linearly_spaced_combinations. cbn [effective_counts combine length].
    rewrite Ht. discriminate.
  - exists t. split; [exact Ht | exact Hshape].
Qed.

Lemma combinations_raises_only_ValueError (A : Type) (dflt : A) (arrays : list (list A)) (e : string) :
  combinations dflt arrays = Raise e -> e = "ValueError".
Proof.
  unfold combinations, Np.reshape_rows.
  destruct (orb _ _); intros H; [now injection H | discriminate].
Qed.

(** C6 (amended): a sequence of counts whose length differs from the number
    of bounds raises no [ConfigurationError].  Bounds and counts are paired
    in order and the surplus of the longer list is ignored: the call
    returns what it returns on the first [k] bounds and the first [k] counts,
    [k] the smaller of the two lengths, that is, for [k >= 1], a table of
    [k] columns whose row count is the product of the first [k] counts. *)
Theorem linearly_spaced_combinations_mismatch_truncates
        (bounds : list (R * R)) (ns : list nat) :
  let k := Nat.min (length bounds) (length ns) in
  linearly_spaced_combinations bounds (Sequence ns) <> Raise "ConfigurationError" /\
  linearly_spaced_combinations bounds (Sequence ns)
    = linearly_spaced_combinations (firstn k bounds) (Sequence (firstn k ns)) /\
  ((1 <= k)%nat ->
   exists t,
     linearly_spaced_combinations bounds (Sequence ns) = Ok t /\
     Np.shape t = [fold_right Nat.mul 1%nat (firstn k ns); k]).
Proof.
  intros k. repeat split.
  - intros H. apply combinations_raises_only_ValueError in H. discriminate.
  - unfold linearly_spaced_combinations. cbn [effective_counts].
    now rewrite (combine_truncate bounds ns).
  - intros Hk.
    assert (Hlen : length (firstn k bounds) = length (firstn k ns))
      by (rewrite !length_firstn; unfold k; lia).
    destruct (@grid_of_pairs (combine bounds ns)) as (t & Ht & Hshape & _).
    { destruct bounds, ns; simpl in *; try discriminate; unfold k in Hk; simpl in Hk; lia. }
    exists t. split; [exact Ht|].
    rewrite Hshape, length_combine. fold k.
    rewrite (combine_truncate bounds ns). fold k.
    now rewrite (combine_snd _ _ Hlen).
Qed.

(** Three bounds and two counts: the grid of the first two dimensions. *)
Lemma linearly_spaced_combinations_mismatch_truncates_witness :
  exists t,
    linearly_spaced_combinations [(0, 1); (0, 2); (0, 3)] (Sequence [2%nat; 3%nat]) = Ok t /\
    Np.shape t = [6%nat; 2%nat].
Proof.
  apply (proj2 (proj2 (@linearly_spaced_combinations_mismatch_truncates
                         [(0, 1); (0, 2); (0, 3)] [2%nat; 3%nat]))).
  simpl. lia.
Defined.

Close Scope R_scope.

(** ** [lqr] *)

Open Scope R_scope.

Lemma singular_1x1 (r : R) : singular [[r]] -> r = 0.
Proof.
  intros (v & Hlen & Hnz & Hker).
  destruct v as [|x [|y v]]; try discriminate.
  inversion Hnz as [? ? Hx|? ? Hx]; subst; [|inversion Hx].
  inversion Hker as [|? ? Hrow _]; subst.
  unfold dot_vec in Hrow. simpl in Hrow.
  rewrite Rplus_0_r in Hrow.
  destruct (Rmult_integral _ _ Hrow); [assumption | contradiction].
Qed.

Lemma solve_1x1_contract : solve_contract solve_1x1.
Proof.
  intros Rm X Hs. unfold solve_1x1.
  destruct Rm as [|[|r [|r' row]] [|row' Rm]]; try reflexivity.
  apply singular_1x1 in Hs.
  destruct (Req_dec_T r 0); [reflexivity | contradiction].
Qed.

Lemma care_1x1_contract : are_contract care_1x1.
Proof.
  intros A B Q Rm e. unfold care_1x1.
  repeat match goal with
         | |- context [match ?x with _ => _ end] => destruct x
         end;
    intros H; try discriminate; injection H as <-;
    ((left; reflexivity) || (right; reflexivity)).
Qed.

(** C7, as stated, on the scalar system [A = 0], [B = 1], [Q = 1] with the
    singular [R = 0]: the exception that reaches the caller is the
    library's [ValueError]. *)
Lemma lqr_singular_R_raises_ValueError :
  singular [[0]] /\
  lqr care_1x1 solve_1x1 [[0]] [[1]] [[1]] [[0]] = Raise "ValueError" /\
  lqr care_1x1 solve_1x1 [[0]] [[1]] [[1]] [[0]] <> Raise "ConfigurationError".
Proof.
  assert (E : lqr care_1x1 solve_1x1 [[0]] [[1]] [[1]] [[0]] = Raise "ValueError").
  { unfold lqr, care_1x1. destruct (Req_dec_T 0 0) as [_|H]; [reflexivity|].
    now contradiction H. }
  split; [|split; [exact E | rewrite E; discriminate]].
  exists [1]. repeat split.
  - constructor. lra.
  - constructor; [|constructor]. unfold dot_vec. simpl. lra.
Qed.

(** C7 (amended): when [R] is singular, [lqr] returns no result; the
    exception that propagates is one of the linear algebra libraries' own
    ([LinAlgError] from [np.linalg.solve], unless the Riccati solver raised
    first), never a [ConfigurationError]. *)
Theorem lqr_singular_R_raises_library_exception
        (solve_continuous_are : matrix -> matrix -> matrix -> matrix -> result matrix)
        (solve : matrix -> matrix -> result matrix)
        (A B Q Rm : matrix) :
  are_contract solve_continuous_are ->
  solve_contract solve ->
  singular Rm ->
  exists e,
    lqr solve_continuous_are solve A B Q Rm = Raise e /\
    library_exception e /\
    e <> "ConfigurationError".
Proof.
  intros Hare Hsolve Hsing.
  assert (Hlib : forall e, library_exception e -> e <> "ConfigurationError")
    by (intros e [-> | ->]; discriminate).
  unfold lqr.
  destruct (solve_continuous_are A B Q Rm) as [P|e] eqn:HP; cbn [bind].
  - rewrite (Hsolve Rm _ Hsing). cbn [bind].
    exists "LinAlgError". split; [reflexivity|]. split; [now left | discriminate].
  - exists e. split; [reflexivity|].
    pose proof (Hare _ _ _ _ _ HP) as He. split; [exact He | now apply Hlib].
Qed.

(** The scalar system with [R = 0]. *)
Lemma lqr_singular_R_raises_library_exception_witness :
  exists e,
    lqr care_1x1 solve_1x1 [[0]] [[1]] [[1]] [[0]] = Raise e /\
    library_exception e /\
    e <> "ConfigurationError".
Proof.
  apply lqr_singular_R_raises_library_exception.
  - exact care_1x1_contract.
  - exact solve_1x1_contract.
  - exists [1]. repeat split.
    + constructor. lra.
    + constructor; [|constructor]. unfold dot_vec. simpl. lra.
Defined.

Close Scope R_scope.

(** ** [ellipse_bounds] *)

Open Scope R_scope.

Lemma nth_map_lt (X Y : Type) (f : X -> Y) (l : list X) (k : nat) (d : X) (d' : Y) :
  (k < length l)%nat -> nth k (map f l) d' = f (nth k l d).
Proof.
  intros Hk. rewrite (nth_indep _ d' (f d)) by now rewrite length_map.
  apply map_nth.
Qed.

Lemma round_up_even_double (n : nat) :
  round_up_even n = (2 * (round_up_even n / 2))%nat.
Proof.
  unfold round_up_even.
  pose proof (Nat.div_mod_eq n 2) as Hn.
  pose proof (Nat.mod_upper_bound n 2) as Hr.
  assert (E : (n + n mod 2 = (n / 2 + n mod 2) * 2)%nat) by lia.
  rewrite E, Nat.div_mul by lia. lia.
Qed.


(** The float that [n /= 2] leaves in [n] has an integer value, and so has
    [n - 1]. *)
Lemma half_count_float (n : nat) :
  INR (round_up_even n) / 2 = IZR (Z.of_nat (round_up_even n / 2)) /\
  INR (round_up_even n) / 2 - 1 = IZR (Z.of_nat (round_up_even n / 2) - 1).
Proof.
  assert (E : INR (round_up_even n) / 2 = IZR (Z.of_nat (round_up_even n / 2))).
  { rewrite (round_up_even_double n) at 1.
    rewrite mult_INR, <- INR_IZR_INZ. simpl INR. field. }
  split; [exact E|]. rewrite E, minus_IZR. reflexivity.
Qed.

Lemma truncate_integer (z : Z) : truncate (IZR z) = z.
Proof.
  unfold truncate. destruct (Rle_dec 0 (IZR z)) as [_|_].
  - apply ZfloorZ.
  - rewrite ZfloorNZ. lia.
Qed.

Lemma float_index_legacy_contract : float_index_contract float_index_legacy.
Proof.
  split.
  - intros z i H. unfold float_index_legacy in H. rewrite truncate_integer in H.
    now injection H as <-.
  - intros x e H. discriminate H.
Qed.


Lemma ellipse_angle_length (eigvec : mat2) (n : nat) :
  length (ellipse_angle eigvec n) = n.
Proof. unfold ellipse_angle. now rewrite length_map, linspace_length. Qed.

(** The sampled angles: [n] equally spaced values from [0] to [2 pi], both
    ends included, shifted by the offset. *)
Lemma ellipse_angle_nth (eigvec : mat2) (n k : nat) :
  (k < n)%nat ->
  nth k (ellipse_angle eigvec n) 0
  = INR k * (2 * PI / INR (n - 1)) + arctan_quot (m01 eigvec) (m00 eigvec).
Proof.
  intros Hk. unfold ellipse_angle.
  rewrite (nth_map_lt _ _ 0) by now rewrite linspace_length.
  rewrite linspace_nth by exact Hk.
  replace (2 * PI - 0) with (2 * PI) by lra. lra.
Qed.

Lemma slice_back_upper_half (X : Type) (l : list X) (h : nat) :
  length l = (2 * h)%nat ->
  slice_back l (Z.of_nat h - 1) = rev (skipn h l).
Proof.
  intros Hlen. unfold slice_back. rewrite Hlen.
  destruct h as [|h].
  - destruct l; [reflexivity | discriminate].
  - destruct (Z.ltb_spec (Z.of_nat (S h) - 1) 0) as [Hneg|_]; [lia|].
    rewrite Z.min_l by lia.
    replace (Z.to_nat (Z.of_nat (S h) - 1 + 1)) with (S h) by lia.
    reflexivity.
Qed.

Lemma slice_front_lower_half (X : Type) (l : list X) (h : nat) :
  length l = (2 * h)%nat ->
  slice_front l (Z.of_nat h) = firstn h l.
Proof.
  intros Hlen. unfold slice_front. rewrite Hlen.
  destruct (Z.ltb_spec (Z.of_nat h) 0) as [Hneg|_]; [lia|].
  rewrite Z.min_l by lia. now rewrite Nat2Z.id.
Qed.

(** The call returns exactly when the eigendecomposition and the two
    conversions of slice bounds return; the three sequences are then the
    slices at the converted bounds. *)
Lemma ellipse_bounds_inv
      (eig : mat2 -> result ((R * R) * mat2)) (float_index : R -> result Z)
      (P : mat2) (level : R) (n : nat) (x yu yl : list R) :
  ellipse_bounds eig float_index P level n = Ok (x, yu, yl) ->
  let N := round_up_even n in
  exists w v i j,
    eig P = Ok (w, v) /\
    float_index (INR N / 2) = Ok i /\
    float_index (INR N / 2 - 1) = Ok j /\
    let pos := ellipse_pos (scale_axes w v level) (ellipse_angle (scale_axes w v level) N) in
    x = slice_front (map fst pos) i /\
    yu = slice_front (map snd pos) i /\
    yl = slice_back (map snd pos) j.
Proof.
  intros H N. unfold ellipse_bounds in H. fold N in H.
  destruct (eig P) as [[w v]|e]; cbn [bind fst snd] in H; [|discriminate].
  destruct (float_index (INR N / 2)) as [i|e] eqn:Hi; cbn [bind] in H; [|discriminate].
  destruct (float_index (INR N / 2 - 1)) as [j|e] eqn:Hj; cbn [bind] in H; [|discriminate].
  injection H as <- <- <-.
  exists w, v, i, j. repeat split; reflexivity.
Qed.

Lemma ellipse_bounds_returns
      (eig : mat2 -> result ((R * R) * mat2)) (float_index : R -> result Z)
      (P : mat2) (level : R) (n : nat) (ev : (R * R) * mat2) (i j : Z) :
  eig P = Ok ev ->
  float_index (INR (round_up_even n) / 2) = Ok i ->
  float_index (INR (round_up_even n) / 2 - 1) = Ok j ->
  exists x yu yl, ellipse_bounds eig float_index P level n = Ok (x, yu, yl).
Proof.
  intros Heig Hi Hj. unfold ellipse_bounds.
  rewrite Heig. cbn [bind]. rewrite Hi. cbn [bind]. rewrite Hj. cbn [bind].
  now do 3 eexists.
Qed.

(** Where a float is accepted as a slice bound, the call returns whenever
    the eigendecomposition does. *)
Lemma ellipse_bounds_legacy_returns
      (eig : mat2 -> result ((R * R) * mat2)) (P : mat2) (level : R) (n : nat)
      (ev : (R * R) * mat2) :
  eig P = Ok ev ->
  exists x yu yl, ellipse_bounds eig float_index_legacy P level n = Ok (x, yu, yl).
Proof.
  intros Heig.
  exact (@ellipse_bounds_returns eig float_index_legacy P level n ev _ _ Heig eq_refl eq_refl).
Qed.

(** Where a float is refused as a slice bound, the call raises
    [TypeError] whenever the eigendecomposition returns. *)
Lemma ellipse_bounds_modern_raises
      (eig : mat2 -> result ((R * R) * mat2)) (P : mat2) (level : R) (n : nat)
      (ev : (R * R) * mat2) :
  eig P = Ok ev ->
  ellipse_bounds eig float_index_modern P level n = Raise "TypeError".
Proof. intros Heig. unfold ellipse_bounds. rewrite Heig. reflexivity. Qed.

(** What [ellipse_bounds] returns, when it returns: three sequences of half
    the rounded count; item [k] of the first two is point [k], item [k] of
    the third is the second coordinate of point [n - 1 - k]. *)
Lemma ellipse_bounds_items
      (eig : mat2 -> result ((R * R) * mat2)) (float_index : R -> result Z)
      (P : mat2) (level : R) (n : nat) (x yu yl : list R) :
  float_index_contract float_index ->
  ellipse_bounds eig float_index P level n = Ok (x, yu, yl) ->
  exists w v,
    eig P = Ok (w, v) /\
    let N := round_up_even n in
    let V := scale_axes w v level in
    let angle := fun k : nat =>
                   INR k * (2 * PI / INR (N - 1)) + arctan_quot (m01 V) (m00 V) in
    length x = (N / 2)%nat /\ length yu = (N / 2)%nat /\ length yl = (N / 2)%nat /\
    forall k, (k < N / 2)%nat ->
      nth k x 0 = ellipse_x V (angle k) /\
      nth k yu 0 = ellipse_y V (angle k) /\
      nth k yl 0 = ellipse_y V (angle (N - 1 - k)%nat).
Proof.
  intros [Hint _] Hres.
  destruct (@ellipse_bounds_inv eig float_index P level n x yu yl Hres)
    as (w & v & i & j & Heig & Hi & Hj & Hx & Hyu & Hyl).
  exists w, v. split; [exact Heig|]. intros N V angle.
  destruct (half_count_float n) as (E1 & E2). fold N in E1, E2, Hi, Hj.
  rewrite E1 in Hi. rewrite E2 in Hj.
  apply Hint in Hi. apply Hint in Hj. subst i j.
  pose proof (round_up_even_double n) as HN. fold N in HN.
  set (h := (N / 2)%nat) in *.
  fold N V in Hx, Hyu, Hyl.
  set (pos := ellipse_pos V (ellipse_angle V N)) in *.
  assert (Hpos : length pos = N)
    by (unfold pos, ellipse_pos; now rewrite length_map, ellipse_angle_length).
  assert (Hnth : forall j, (j < N)%nat ->
            nth j pos (0, 0) = (ellipse_x V (angle j), ellipse_y V (angle j))).
  { intros j Hj. unfold pos, ellipse_pos.
    rewrite (nth_map_lt _ _ 0) by now rewrite ellipse_angle_length.
    now rewrite ellipse_angle_nth. }
  rewrite slice_front_lower_half in Hx, Hyu by (rewrite length_map; lia).
  rewrite slice_back_upper_half in Hyl by (rewrite length_map; lia).
  subst x yu yl.
  repeat split.
  - rewrite length_firstn, length_map. lia.
  - rewrite length_firstn, length_map. lia.
  - rewrite length_rev, length_skipn, length_map. lia.
  - rewrite nth_firstn. destruct (Nat.ltb_spec k h) as [_|]; [|lia].
    rewrite (nth_map_lt _ _ (0, 0)) by lia. now rewrite Hnth by lia.
  - rewrite nth_firstn. destruct (Nat.ltb_spec k h) as [_|]; [|lia].
    rewrite (nth_map_lt _ _ (0, 0)) by lia. now rewrite Hnth by lia.
  - rewrite rev_nth by (rewrite length_skipn, length_map; lia).
    rewrite length_skipn, length_map, nth_skipn.
    rewrite (nth_map_lt _ _ (0, 0)) by lia.
    rewrite Hnth by lia. cbn [snd]. f_equal. unfold angle. do 3 f_equal. lia.
Qed.

Close Scope R_scope.

(** ** The geometry of the sampled points *)

Open Scope R_scope.

Section EllipseGeometry.

Variables (P : mat2) (w : R * R) (v : mat2) (level : R).

Hypothesis Hpd : positive_definite P.
Hypothesis Heig : eig_ok P w v.
Hypothesis Hlevel : 0 < level.

Let V := scale_axes w v level.
Let theta0 := arctan_quot (m01 V) (m00 V).

(** The eigenvalues of a positive definite matrix are positive. *)
Lemma eigenvalues_positive : 0 < fst w /\ 0 < snd w.
Proof.
  destruct Heig as ((E00 & E10) & (E01 & E11) & U0 & U1 & _).
  split.
  - assert (Hnz : m00 v <> 0 \/ m10 v <> 0).
    { destruct (Req_dec (m00 v) 0) as [Z|]; [right | now left].
      intros Z'. rewrite Z, Z' in U0. lra. }
    pose proof (Hpd Hnz) as Hq. unfold quad in Hq.
    rewrite E00, E10 in Hq.
    replace (m00 v * (fst w * m00 v) + m10 v * (fst w * m10 v))
      with (fst w * (m00 v * m00 v + m10 v * m10 v)) in Hq by ring.
    rewrite U0 in Hq. lra.
  - assert (Hnz : m01 v <> 0 \/ m11 v <> 0).
    { destruct (Req_dec (m01 v) 0) as [Z|]; [right | now left].
      intros Z'. rewrite Z, Z' in U1. lra. }
    pose proof (Hpd Hnz) as Hq. unfold quad in Hq.
    rewrite E01, E11 in Hq.
    replace (m01 v * (snd w * m01 v) + m11 v * (snd w * m11 v))
      with (snd w * (m01 v * m01 v + m11 v * m11 v)) in Hq by ring.
    rewrite U1 in Hq. lra.
Qed.

Lemma scale_positive :
  0 < sqrt (level / fst w) /\ 0 < sqrt (level / snd w) /\
  sqrt (level / fst w) * sqrt (level / fst w) * fst w = level /\
  sqrt (level / snd w) * sqrt (level / snd w) * snd w = level.
Proof.
  destruct eigenvalues_positive as (H0 & H1).
  assert (Q0 : 0 < level / fst w) by (apply Rdiv_lt_0_compat; assumption).
  assert (Q1 : 0 < level / snd w) by (apply Rdiv_lt_0_compat; assumption).
  repeat split.
  - now apply sqrt_lt_R0.
  - now apply sqrt_lt_R0.
  - rewrite sqrt_sqrt by lra. field. lra.
  - rewrite sqrt_sqrt by lra. field. lra.
Qed.

(** The first row of the scaled eigenvector matrix is not zero, so the
    quotient whose arc tangent is taken is never [0 / 0]. *)
Lemma scaled_row_nonzero : m00 V <> 0 \/ m01 V <> 0.
Proof.
  destruct Heig as (_ & _ & U0 & U1 & Orth).
  destruct scale_positive as (S0 & S1 & _).
  unfold V, scale_axes. cbn [m00 m01].
  destruct (Req_dec (m00 v) 0) as [Z0|NZ0].
  - right. intros Hz.
    assert (Z1 : m01 v = 0).
    { destruct (Rmult_integral _ _ Hz); [assumption | lra]. }
    rewrite Z0 in U0, Orth. rewrite Z1 in U1, Orth. nra.
  - left. intros Hz. destruct (Rmult_integral _ _ Hz); [contradiction | lra].
Qed.

(** Every point of the parametrisation lies on the level set. *)
Lemma point_on_ellipse (a : R) : quad P (ellipse_x V a) (ellipse_y V a) = level.
Proof.
  destruct Heig as ((E00 & E10) & (E01 & E11) & U0 & U1 & Orth).
  destruct scale_positive as (_ & _ & Q0 & Q1).
  unfold quad, ellipse_x, ellipse_y, V, scale_axes. cbn [m00 m01 m10 m11].
  set (s0 := sqrt (level / fst w)) in *. set (s1 := sqrt (level / snd w)) in *.
  set (C := cos a). set (S := sin a).
  assert (R0 : m00 P * (C * (m00 v * s0) + S * (m01 v * s1))
               + m01 P * (C * (m10 v * s0) + S * (m11 v * s1))
               = C * s0 * (fst w * m00 v) + S * s1 * (snd w * m01 v)).
  { rewrite <- E00, <- E01. ring. }
  assert (R1 : m10 P * (C * (m00 v * s0) + S * (m01 v * s1))
               + m11 P * (C * (m10 v * s0) + S * (m11 v * s1))
               = C * s0 * (fst w * m10 v) + S * s1 * (snd w * m11 v)).
  { rewrite <- E10, <- E11. ring. }
  rewrite R0, R1.
  replace ((C * (m00 v * s0) + S * (m01 v * s1))
           * (C * s0 * (fst w * m00 v) + S * s1 * (snd w * m01 v))
           + (C * (m10 v * s0) + S * (m11 v * s1))
             * (C * s0 * (fst w * m10 v) + S * s1 * (snd w * m11 v)))
    with (C * C * (s0 * s0 * fst w) * (m00 v * m00 v + m10 v * m10 v)
          + S * S * (s1 * s1 * snd w) * (m01 v * m01 v + m11 v * m11 v)
          + C * S * s0 * s1 * (fst w + snd w) * (m00 v * m01 v + m10 v * m11 v))
    by ring.
  rewrite Q0, Q1, U0, U1, Orth.
  pose proof (sin2_cos2 a) as Hsc. unfold Rsqr in Hsc. fold C S in Hsc. nra.
Qed.

End EllipseGeometry.

(** The offset is a stationary angle of the first coordinate. *)
Lemma arctan_quot_stationary (b a : R) :
  a * sin (arctan_quot b a) = b * cos (arctan_quot b a).
Proof.
  unfold arctan_quot. destruct (Req_dec_T a 0) as [->|Ha].
  - destruct (Rlt_dec 0 b).
    + rewrite cos_PI2. ring.
    + rewrite cos_neg, cos_PI2. ring.
  - pose proof (atan_bound (b / a)) as [Hlo Hhi].
    assert (Hc : 0 < cos (atan (b / a))) by (apply cos_gt_0; lra).
    pose proof (tan_atan (b / a)) as Ht. unfold tan in Ht.
    set (th := atan (b / a)) in *.
    assert (Hs : sin th = b / a * cos th).
    { rewrite <- Ht. field. lra. }
    rewrite Hs. field. exact Ha.
Qed.

Lemma arctan_quot_cos_nonneg (b a : R) : 0 <= cos (arctan_quot b a).
Proof.
  unfold arctan_quot. destruct (Req_dec_T a 0) as [->|Ha].
  - destruct (Rlt_dec 0 b).
    + rewrite cos_PI2. lra.
    + rewrite cos_neg, cos_PI2. lra.
  - pose proof (atan_bound (b / a)) as [Hlo Hhi].
    left. apply cos_gt_0; lra.
Qed.

Lemma arctan_quot_cos_pos (b a : R) : a <> 0 -> 0 < cos (arctan_quot b a).
Proof.
  intros Ha. unfold arctan_quot. destruct (Req_dec_T a 0) as [E|_]; [contradiction|].
  pose proof (atan_bound (b / a)) as [Hlo Hhi]. apply cos_gt_0; lra.
Qed.

(** Around the offset, the first coordinate is a cosine and the second a
    cosine plus a sine. *)
Lemma ellipse_x_shift (V : mat2) (u : R) :
  let theta0 := arctan_quot (m01 V) (m00 V) in
  ellipse_x V (u + theta0) = ellipse_x V theta0 * cos u.
Proof.
  intros theta0. unfold ellipse_x.
  pose proof (arctan_quot_stationary (m01 V) (m00 V)) as Hst. fold theta0 in Hst.
  rewrite cos_plus, sin_plus.
  replace ((cos u * cos theta0 - sin u * sin theta0) * m00 V
           + (sin u * cos theta0 + cos u * sin theta0) * m01 V)
    with ((cos theta0 * m00 V + sin theta0 * m01 V) * cos u
          + sin u * (m01 V * cos theta0 - m00 V * sin theta0)) by ring.
  rewrite Hst. ring.
Qed.

Lemma ellipse_y_shift (V : mat2) (u : R) :
  let theta0 := arctan_quot (m01 V) (m00 V) in
  ellipse_y V (u + theta0)
  = ellipse_y V theta0 * cos u + (m11 V * cos theta0 - m10 V * sin theta0) * sin u.
Proof.
  intros theta0. unfold ellipse_y. rewrite cos_plus, sin_plus. ring.
Qed.

Lemma cos_2PI_minus (t : R) : cos (2 * PI - t) = cos t.
Proof. rewrite cos_minus, cos_2PI, sin_2PI. ring. Qed.

Lemma sin_2PI_minus (t : R) : sin (2 * PI - t) = - sin t.
Proof. rewrite sin_minus, cos_2PI, sin_2PI. ring. Qed.

(** The angle of sample [n - 1 - k] mirrors that of sample [k]. *)
Lemma mirror_angle (n k : nat) :
  (k < n)%nat -> (2 <= n)%nat ->
  INR (n - 1 - k) * (2 * PI / INR (n - 1)) = 2 * PI - INR k * (2 * PI / INR (n - 1)).
Proof.
  intros Hk Hn.
  assert (Hpos : 0 < INR (n - 1)) by (apply lt_0_INR; lia).
  rewrite minus_INR by lia. field. lra.
Qed.

(** In the first half of the samples the angle stays in [[0, pi)]. *)
Lemma first_half_angle (h k : nat) :
  (k < h)%nat ->
  0 <= INR k * (2 * PI / INR (2 * h - 1)) < PI.
Proof.
  intros Hk.
  assert (Hpos : 0 < INR (2 * h - 1)) by (apply lt_0_INR; lia).
  assert (Hk0 : 0 <= INR k) by apply pos_INR.
  assert (Hlt : 2 * INR k < INR (2 * h - 1)).
  { replace 2 with (INR 2) by (simpl; lra). rewrite <- mult_INR. apply lt_INR. lia. }
  pose proof PI_RGT_0 as Hpi.
  split.
  - apply Rmult_le_pos; [exact Hk0|]. apply Rmult_le_pos; [lra|].
    left. now apply Rinv_0_lt_compat.
  - replace (INR k * (2 * PI / INR (2 * h - 1)))
      with (PI * (2 * INR k / INR (2 * h - 1))) by (field; lra).
    rewrite <- (Rmult_1_r PI) at 2.
    apply Rmult_lt_compat_l; [exact Hpi|].
    apply (Rmult_lt_reg_r (INR (2 * h - 1))); [exact Hpos|].
    replace (2 * INR k / INR (2 * h - 1) * INR (2 * h - 1)) with (2 * INR k)
      by (field; lra).
    lra.
Qed.

Close Scope R_scope.

(** ** What [ellipse_bounds] returns *)

Open Scope R_scope.

Lemma eig_ok_identity : eig_ok identity2 (1, 1) identity2.
Proof. unfold eig_ok, identity2. cbn. repeat split; ring. Qed.

Lemma positive_definite_identity : positive_definite identity2.
Proof.
  intros x y Hxy. unfold quad, identity2. cbn.
  destruct Hxy as [H|H]; nra.
Qed.

(** C5: for a symmetric positive definite [P] and a level [c > 0], every
    point that [ellipse_bounds] returns lies on the ellipse: at each index
    [k] of the returned sequences (half the rounded sample count of them),
    both [(x[k], yu[k])] and [(x[k], yl[k])] satisfy [x' P x = c] (in exact
    arithmetic).  The eigendecomposition is the library's: eigenvalues and
    orthonormal eigenvectors of [P]. *)
Theorem ellipse_bounds_on_ellipse
        (eig : mat2 -> result ((R * R) * mat2)) (float_index : R -> result Z)
        (P : mat2) (level : R) (n : nat) (w : R * R) (v : mat2) (x yu yl : list R) :
  symmetric P -> positive_definite P -> 0 < level ->
  eig P = Ok (w, v) -> eig_ok P w v ->
  float_index_contract float_index ->
  ellipse_bounds eig float_index P level n = Ok (x, yu, yl) ->
  length x = (round_up_even n / 2)%nat /\
  length yu = length x /\ length yl = length x /\
  forall k, (k < length x)%nat ->
    quad P (nth k x 0) (nth k yu 0) = level /\
    quad P (nth k x 0) (nth k yl 0) = level.
Proof.
  intros _ Hpd Hlevel Heig Hok Hfi Hres.
  destruct (@ellipse_bounds_items eig float_index P level n x yu yl Hfi Hres)
    as (w' & v' & Heig' & Lx & Lyu & Lyl & Hitems).
  rewrite Heig in Heig'. injection Heig' as <- <-.
  pose proof (round_up_even_double n) as HN.
  set (N := round_up_even n) in *. set (V := scale_axes w v level) in *.
  split; [exact Lx|]. split; [congruence|]. split; [congruence|].
  intros k Hk. rewrite Lx in Hk.
  destruct (Hitems k Hk) as (Hx & Hyu & Hyl).
  split.
  - rewrite Hx, Hyu. now apply point_on_ellipse.
  - rewrite Hyl.
    replace (nth k x 0) with
      (ellipse_x V (INR (N - 1 - k) * (2 * PI / INR (N - 1))
                    + arctan_quot (m01 V) (m00 V))).
    + now apply point_on_ellipse.
    + rewrite Hx, !ellipse_x_shift, mirror_angle by lia.
      now rewrite cos_2PI_minus.
Qed.

(** The unit circle, sampled four times, where a float is accepted as a
    slice bound. *)
Lemma ellipse_bounds_on_ellipse_witness :
  exists x yu yl,
    ellipse_bounds eig_diagonal float_index_legacy identity2 1 4 = Ok (x, yu, yl) /\
    length x = 2%nat /\
    forall k, (k < length x)%nat ->
      quad identity2 (nth k x 0) (nth k yu 0) = 1 /\
      quad identity2 (nth k x 0) (nth k yl 0) = 1.
Proof.
  destruct (@ellipse_bounds_legacy_returns eig_diagonal identity2 1 4 _ eq_refl)
    as (x & yu & yl & Hres).
  exists x, yu, yl. split; [exact Hres|].
  destruct (@ellipse_bounds_on_ellipse eig_diagonal float_index_legacy identity2 1 4
              (1, 1) identity2 x yu yl) as (Lx & _ & _ & Hon).
  - reflexivity.
  - exact positive_definite_identity.
  - lra.
  - reflexivity.
  - exact eig_ok_identity.
  - exact float_index_legacy_contract.
  - exact Hres.
  - split; [exact Lx | exact Hon].
Defined.




Close Scope R_scope.

(** ** The sampled angles and the two branches *)

Open Scope R_scope.

(** At the offset the first coordinate is extremal; it is the largest one
    when the first item of the scaled eigenvector matrix is not negative,
    the smallest one when it is negative. *)
Lemma ellipse_x_extremal (V : mat2) (a : R) :
  let theta0 := arctan_quot (m01 V) (m00 V) in
  Rabs (ellipse_x V a) <= Rabs (ellipse_x V theta0).
Proof.
  intros theta0.
  replace a with ((a - theta0) + theta0) by ring.
  unfold theta0. rewrite ellipse_x_shift, Rabs_mult.
  rewrite <- (Rmult_1_r (Rabs (ellipse_x V _))) at 2.
  apply Rmult_le_compat_l; [apply Rabs_pos|].
  apply Rabs_le. apply COS_bound.
Qed.

Lemma ellipse_x_offset_sign (V : mat2) :
  let theta0 := arctan_quot (m01 V) (m00 V) in
  m00 V * ellipse_x V theta0
  = (m00 V * m00 V + m01 V * m01 V) * cos theta0.
Proof.
  intros theta0. unfold ellipse_x.
  pose proof (arctan_quot_stationary (m01 V) (m00 V)) as Hst. fold theta0 in Hst.
  replace (m00 V * (cos theta0 * m00 V + sin theta0 * m01 V))
    with (m00 V * m00 V * cos theta0 + (m00 V * sin theta0) * m01 V) by ring.
  rewrite Hst. ring.
Qed.

Lemma ellipse_x_offset_nonneg (V : mat2) :
  0 <= m00 V -> 0 <= ellipse_x V (arctan_quot (m01 V) (m00 V)).
Proof.
  intros Ha. destruct (Req_dec (m00 V) 0) as [Z|NZ].
  - unfold ellipse_x, arctan_quot. rewrite Z.
    destruct (Req_dec_T 0 0) as [_|H]; [|now contradiction H].
    destruct (Rlt_dec 0 (m01 V)) as [Hb|Hb].
    + rewrite sin_PI2. lra.
    + rewrite sin_neg, sin_PI2. lra.
  - pose proof (ellipse_x_offset_sign V) as Hs. cbv zeta in Hs.
    pose proof (arctan_quot_cos_pos (m01 V) NZ) as Hc.
    assert (Hq : 0 < m00 V * m00 V + m01 V * m01 V) by nra.
    assert (Hp : 0 < m00 V * ellipse_x V (arctan_quot (m01 V) (m00 V))).
    { rewrite Hs. now apply Rmult_lt_0_compat. }
    nra.
Qed.

Lemma ellipse_x_maximal (V : mat2) (a : R) :
  0 <= m00 V ->
  ellipse_x V a <= ellipse_x V (arctan_quot (m01 V) (m00 V)).
Proof.
  intros Ha. pose proof (ellipse_x_offset_nonneg V Ha) as HM.
  replace a with ((a - arctan_quot (m01 V) (m00 V)) + arctan_quot (m01 V) (m00 V)) by ring.
  rewrite ellipse_x_shift.
  pose proof (COS_bound (a - arctan_quot (m01 V) (m00 V))) as [_ Hc]. nra.
Qed.




Close Scope R_scope.

Open Scope R_scope.

(** The gap between the two returned branches at index [k]: twice the sine
    of the sample angle, times a factor [W] whose sign is that of the first
    item of the scaled eigenvector matrix times its determinant. *)
Lemma ellipse_bounds_branch_gap
      (eig : mat2 -> result ((R * R) * mat2)) (float_index : R -> result Z)
      (P : mat2) (level : R) (n : nat) (x yu yl : list R) :
  float_index_contract float_index ->
  ellipse_bounds eig float_index P level n = Ok (x, yu, yl) ->
  exists w v,
    eig P = Ok (w, v) /\
    let N := round_up_even n in
    let V := scale_axes w v level in
    let theta0 := arctan_quot (m01 V) (m00 V) in
    let W := m11 V * cos theta0 - m10 V * sin theta0 in
    length x = (N / 2)%nat /\
    m00 V * W = cos theta0 * (m00 V * m11 V - m01 V * m10 V) /\
    forall k, (k < N / 2)%nat ->
      nth k yu 0 - nth k yl 0 = 2 * W * sin (INR k * (2 * PI / INR (N - 1))) /\
      0 <= sin (INR k * (2 * PI / INR (N - 1))) /\
      ((0 < k)%nat -> 0 < sin (INR k * (2 * PI / INR (N - 1)))).
Proof.
  intros Hfi Hres.
  destruct (@ellipse_bounds_items eig float_index P level n x yu yl Hfi Hres) as (w & v & Heig & Lx & _ & _ & Hitems).
  exists w, v. split; [exact Heig|]. intros N V theta0 W.
  pose proof (round_up_even_double n) as HN. fold N in HN, Lx, Hitems.
  fold V in Hitems.
  split; [exact Lx|]. split.
  { unfold W. pose proof (arctan_quot_stationary (m01 V) (m00 V)) as Hst.
    fold theta0 in Hst.
    replace (m00 V * (m11 V * cos theta0 - m10 V * sin theta0))
      with (m00 V * m11 V * cos theta0 - m10 V * (m00 V * sin theta0)) by ring.
    rewrite Hst. ring. }
  intros k Hk. destruct (Hitems k Hk) as (_ & Hyu & Hyl).
  assert (Hang : 0 <= INR k * (2 * PI / INR (N - 1)) < PI).
  { rewrite HN. apply first_half_angle. exact Hk. }
  split; [|split].
  - rewrite Hyu, Hyl, mirror_angle by lia.
    rewrite !ellipse_y_shift. fold theta0. fold W.
    rewrite cos_2PI_minus, sin_2PI_minus. ring.
  - apply sin_ge_0; lra.
  - intros Hk0. apply sin_gt_0; [|lra].
    assert (Hpos : 0 < INR (N - 1)) by (apply lt_0_INR; lia).
    assert (0 < INR k) by (apply lt_0_INR; lia).
    pose proof PI_RGT_0.
    apply Rmult_lt_0_compat; [assumption|].
    apply Rmult_lt_0_compat; [lra | now apply Rinv_0_lt_compat].
Qed.

(** The order of the two branches, when the call returns: the sequence
    returned as upper bound lies above the one returned as lower bound when
    the first item of the eigenvector matrix and its determinant have the
    same sign, and below it when they have opposite signs; they meet at
    index 0 only. *)
Lemma ellipse_bounds_branch_order
      (eig : mat2 -> result ((R * R) * mat2)) (float_index : R -> result Z)
      (P : mat2) (level : R) (n : nat) (w : R * R) (v : mat2) (x yu yl : list R) :
  positive_definite P -> 0 < level ->
  eig P = Ok (w, v) -> eig_ok P w v ->
  float_index_contract float_index ->
  ellipse_bounds eig float_index P level n = Ok (x, yu, yl) ->
  let orientation := m00 v * (m00 v * m11 v - m01 v * m10 v) in
  ((1 <= length x)%nat -> nth 0 yu 0 = nth 0 yl 0) /\
  (0 < orientation ->
   forall k, (0 < k < length x)%nat -> nth k yl 0 < nth k yu 0) /\
  (orientation < 0 ->
   forall k, (0 < k < length x)%nat -> nth k yu 0 < nth k yl 0).
Proof.
  intros Hpd Hlevel Heig Hok Hfi Hres orientation.
  destruct (@ellipse_bounds_branch_gap eig float_index P level n x yu yl Hfi Hres)
    as (w' & v' & Heig' & Lx & HW & Hgap).
  rewrite Heig in Heig'. injection Heig' as <- <-.
  destruct (scale_positive Hpd Hok Hlevel) as (S0 & S1 & _).
  set (V := scale_axes w v level) in *.
  set (theta0 := arctan_quot (m01 V) (m00 V)) in *.
  set (W := m11 V * cos theta0 - m10 V * sin theta0) in *.
  set (s0 := sqrt (level / fst w)) in *. set (s1 := sqrt (level / snd w)) in *.
  assert (HV : m00 V * (m00 V * m11 V - m01 V * m10 V) = s0 * s0 * s1 * orientation).
  { unfold V, scale_axes, orientation. cbn [m00 m01 m10 m11]. fold s0 s1. ring. }
  assert (Hsign : m00 V * m00 V * W = cos theta0 * (s0 * s0 * s1 * orientation)).
  { rewrite <- HV, Rmult_assoc, HW. ring. }
  assert (Hss : 0 < s0 * s0 * s1) by (repeat apply Rmult_lt_0_compat; assumption).
  rewrite Lx. split; [|split].
  - intros H1. destruct (Hgap 0%nat H1) as (Hg & _).
    simpl INR in Hg. rewrite Rmult_0_l, sin_0 in Hg. lra.
  - intros Hor k Hk. destruct (Hgap k (proj2 Hk)) as (Hg & _ & Hs).
    specialize (Hs (proj1 Hk)).
    assert (Hnz : m00 V <> 0) by (intros Z; rewrite Z in HV; nra).
    pose proof (arctan_quot_cos_pos (m01 V) Hnz) as Hc. fold theta0 in Hc.
    assert (HWpos : 0 < W).
    { assert (0 < m00 V * m00 V) by nra.
      assert (0 < cos theta0 * (s0 * s0 * s1 * orientation))
        by (apply Rmult_lt_0_compat; [assumption | now apply Rmult_lt_0_compat]).
      nra. }
    assert (0 < 2 * W * sin (INR k * (2 * PI / INR (round_up_even n - 1)))).
    { apply Rmult_lt_0_compat; [lra | assumption]. }
    lra.
  - intros Hor k Hk. destruct (Hgap k (proj2 Hk)) as (Hg & _ & Hs).
    specialize (Hs (proj1 Hk)).
    assert (Hnz : m00 V <> 0) by (intros Z; rewrite Z in HV; nra).
    pose proof (arctan_quot_cos_pos (m01 V) Hnz) as Hc. fold theta0 in Hc.
    assert (HWneg : 0 < - W).
    { assert (0 < m00 V * m00 V) by nra.
      assert (0 < cos theta0 * (s0 * s0 * s1 * - orientation))
        by (apply Rmult_lt_0_compat; [assumption | apply Rmult_lt_0_compat; lra]).
      nra. }
    assert (0 < 2 * - W * sin (INR k * (2 * PI / INR (round_up_even n - 1)))).
    { apply Rmult_lt_0_compat; [lra | assumption]. }
    lra.
Qed.

Lemma positive_definite_tilted : positive_definite P_tilted.
Proof.
  intros x y Hxy. unfold quad, P_tilted. cbn [m00 m01 m10 m11].
  assert (E : x * (52 * x + 36 * y) + y * (36 * x + 73 * y)
              = (6 * x + 6 * y) * (6 * x + 6 * y) + 16 * (x * x) + 37 * (y * y)) by ring.
  rewrite E.
  pose proof (Rle_0_sqr (6 * x + 6 * y)) as H0.
  pose proof (Rle_0_sqr x) as Hx. pose proof (Rle_0_sqr y) as Hy.
  unfold Rsqr in *.
  destruct Hxy as [H|H]; apply Rsqr_pos_lt in H; unfold Rsqr in H; lra.
Qed.

Lemma eig_ok_tilted :
  eig_ok P_tilted (25, 100)
         {| m00 := - (4 / 5); m01 := - (3 / 5); m10 := 3 / 5; m11 := - (4 / 5) |}.
Proof. unfold eig_ok, P_tilted. cbn. repeat split; field. Qed.

(** C9 on [P = [[52, 36], [36, 73]]], level 100, four samples: the matrix
    is symmetric and positive definite and the eigendecomposition is a valid
    one.  Where a float is refused as a slice bound, the call raises
    [TypeError] and returns no pair of branches at all; where it is
    accepted, the sequence returned as upper bound is, at index 1, below the
    one returned as lower bound. *)
Theorem ellipse_bounds_tilted_upper_below_lower :
  symmetric P_tilted /\ positive_definite P_tilted /\
  eig_ok P_tilted (25, 100)
         {| m00 := - (4 / 5); m01 := - (3 / 5); m10 := 3 / 5; m11 := - (4 / 5) |} /\
  ellipse_bounds eig_tilted float_index_modern P_tilted 100 4 = Raise "TypeError" /\
  exists x yu yl,
    ellipse_bounds eig_tilted float_index_legacy P_tilted 100 4 = Ok (x, yu, yl) /\
    length x = 2%nat /\
    nth 1 yu 0 < nth 1 yl 0.
Proof.
  split; [reflexivity|]. split; [exact positive_definite_tilted|].
  split; [exact eig_ok_tilted|]. split; [reflexivity|].
  destruct (@ellipse_bounds_legacy_returns eig_tilted P_tilted 100 4 _ eq_refl)
    as (x & yu & yl & Hres).
  destruct (@ellipse_bounds_branch_order eig_tilted float_index_legacy P_tilted 100 4
              (25, 100) _ x yu yl
              positive_definite_tilted ltac:(lra) eq_refl eig_ok_tilted
              float_index_legacy_contract Hres)
    as (_ & _ & Hbelow).
  destruct (@ellipse_bounds_items eig_tilted float_index_legacy P_tilted 100 4 x yu yl float_index_legacy_contract Hres)
    as (w' & v' & _ & Lx & _).
  exists x, yu, yl. split; [exact Hres|]. split; [exact Lx|].
  apply Hbelow.
  - cbn [m00 m01 m10 m11]. lra.
  - rewrite Lx. change (round_up_even 4 / 2)%nat with 2%nat. lia.
Qed.

Close Scope R_scope.

(** * Further properties *)

(** ** [combinations]: failure, and the order of the rows *)



(** For three arrays the third coordinate varies slowest, then the first,
    and the second fastest: row [(i3 * n1 + i1) * n2 + i2] is
    [(x[i1], y[i2], z[i3])]. *)
Theorem combinations_triple_row_order
        (A : Type) (dflt : A) (x y z : list A) (i1 i2 i3 : nat) :
  i1 < length x -> i2 < length y -> i3 < length z ->
  exists t,
    combinations dflt [x; y; z] = Ok t /\
    nth_error (Np.rows t) ((i3 * length x + i1) * length y + i2)
    = Some [nth i1 x dflt; nth i2 y dflt; nth i3 z dflt].
Proof.
  intros H1 H2 H3.
  destruct (@combinations_table A dflt [x; y; z]) as (t & Ht & _ & Hrows);
    [discriminate|].
  exists t. split; [exact Ht|].
  cbn [map] in Hrows. rewrite Hrows.
  set (n1 := length x) in *. set (n2 := length y) in *. set (n3 := length z) in *.
  assert (Hsize : Np.size [n1; n2; n3] = n1 * n2 * n3).
  { rewrite !NpFacts.size_cons, NpFacts.size_nil. lia. }
  assert (Hr : (i3 * n1 + i1) * n2 + i2 < n1 * n2 * n3).
  { clearbody n1 n2 n3. assert (i3 * n1 + i1 < n3 * n1) by nia. nia. }
  rewrite Hsize, nth_error_map, nth_error_seq.
  destruct (Nat.ltb_spec ((i3 * n1 + i1) * n2 + i2) (n1 * n2 * n3)) as [_|]; [|lia].
  cbn [option_map Nat.add]. f_equal.
  assert (Hidx : Np.unravel [n3; n1; n2] ((i3 * n1 + i1) * n2 + i2) = [i3; i1; i2]).
  { replace ((i3 * n1 + i1) * n2 + i2) with (Np.ravel [n3; n1; n2] [i3; i1; i2]).
    - apply NpFacts.unravel_ravel. repeat constructor; assumption.
    - cbn [Np.ravel]. rewrite !NpFacts.size_cons, NpFacts.size_nil. lia. }
  unfold row_index. cbn [Np.swap01 rev app]. rewrite Hidx. reflexivity.
Qed.

(** With [x = [1; 2]], [y = [3; 4]], [z = [5; 6]], row 5 is [(1, 4, 6)]. *)
Lemma combinations_triple_row_order_witness :
  exists t,
    combinations 0 [[1; 2]; [3; 4]; [5; 6]] = Ok t /\
    nth_error (Np.rows t) 5 = Some [1; 4; 6].
Proof.
  apply (@combinations_triple_row_order nat 0 [1; 2] [3; 4] [5; 6] 0 1 1); simpl; lia.
Defined.

Lemma swap01_snoc (X : Type) (l : list X) (a : X) :
  2 <= length l -> Np.swap01 (l ++ [a]) = Np.swap01 l ++ [a].
Proof. destruct l as [|u [|w l]]; simpl; intros H; try lia. reflexivity. Qed.

Lemma row_index_snoc (lens : list nat) (n r : nat) :
  2 <= length lens ->
  row_index (lens ++ [n]) r
  = row_index lens (r mod Np.size lens) ++ [r / Np.size lens].
Proof.
  intros Hlen. unfold row_index.
  rewrite swap01_snoc by exact Hlen.
  rewrite rev_app_distr. cbn [rev app Np.unravel].
  rewrite NpFacts.size_rev, NpFacts.size_swap01.
  rewrite swap01_snoc; [reflexivity|].
  now rewrite length_rev, NpFacts.unravel_length, length_rev, swap01_length.
Qed.

Lemma pick_snoc (A : Type) (dflt : A) (arrays : list (list A)) (z : list A) :
  forall idx j, length idx = length arrays ->
    pick dflt (arrays ++ [z]) (idx ++ [j]) = pick dflt arrays idx ++ [nth j z dflt].
Proof.
  induction arrays as [|x rest IH]; intros [|i idx] j Hlen; simpl in *;
    try discriminate; try reflexivity.
  f_equal. apply IH. lia.
Qed.

Lemma seq_from (a n : nat) : seq a n = map (Nat.add a) (seq 0 n).
Proof.
  revert a. induction n as [|n IH]; intros a; simpl; [reflexivity|].
  rewrite Nat.add_0_r. f_equal.
  rewrite <- (seq_shift n 0), map_map, (IH (S a)).
  apply map_ext. intros k. lia.
Qed.

(** A list indexed by [0 .. n * s - 1], cut into [n] blocks of [s]. *)
Lemma map_seq_blocks (X : Type) (f : nat -> X) (s n : nat) :
  map f (seq 0 (n * s))
  = flat_map (fun j => map (fun m => f (j * s + m)) (seq 0 s)) (seq 0 n).
Proof.
  induction n as [|n IH]; [reflexivity|].
  replace (S n * s) with (n * s + s) by lia.
  rewrite seq_app, map_app, IH, seq_S, flat_map_app. cbn [flat_map Nat.add].
  rewrite app_nil_r. f_equal.
  rewrite (seq_from (n * s) s), map_map. reflexivity.
Qed.

Lemma flat_map_over_map (X Y Z : Type) (f : Y -> list Z) (g : X -> Y) (l : list X) :
  flat_map f (map g l) = flat_map (fun x => f (g x)) l.
Proof.
  induction l as [|x l IH]; simpl; [reflexivity|]. now rewrite IH.
Qed.

(** One more array at the end of at least two: its items vary slowest.  The
    table is that of the first arrays, repeated once per item of the new
    array, with that item appended to every row. *)
Theorem combinations_append_array
        (A : Type) (dflt : A) (arrays : list (list A)) (z : list A) :
  2 <= length arrays ->
  exists t t',
    combinations dflt arrays = Ok t /\
    combinations dflt (arrays ++ [z]) = Ok t' /\
    Np.rows t' = flat_map (fun v => map (fun row => row ++ [v]) (Np.rows t)) z.
Proof.
  intros Hlen.
  assert (Hne : arrays <> []) by (intros ->; simpl in Hlen; lia).
  assert (Hne' : arrays ++ [z] <> []) by (intros E; now apply app_eq_nil in E as [_ E]).
  destruct (combinations_table dflt Hne) as (t & Ht & _ & Hrows).
  destruct (combinations_table dflt Hne') as (t' & Ht' & _ & Hrows').
  exists t, t'. split; [exact Ht|]. split; [exact Ht'|].
  rewrite Hrows', Hrows. clear Hrows Hrows' Ht Ht'.
  rewrite map_app. cbn [map].
  set (lens := map (@length A) arrays).
  assert (Hl : 2 <= length lens) by (unfold lens; now rewrite length_map).
  rewrite NpFacts.size_app, NpFacts.size_cons, NpFacts.size_nil, Nat.mul_1_r.
  rewrite (Nat.mul_comm (Np.size lens) (length z)), map_seq_blocks.
  transitivity
    (flat_map (fun v => map (fun row => row ++ [v])
                            (map (fun r => pick dflt arrays (row_index lens r))
                                 (seq 0 (Np.size lens))))
              (map (fun i => nth i z dflt) (seq 0 (length z))));
    [|now rewrite <- list_as_nth].
  rewrite flat_map_over_map.
  apply flat_map_ext. intros j.
  rewrite map_map. apply map_ext_in. intros m Hm. apply in_seq in Hm.
  rewrite row_index_snoc by exact Hl.
  assert (Hs : Np.size lens <> 0) by lia.
  rewrite (Nat.add_comm (j * Np.size lens) m).
  rewrite Nat.Div0.mod_add, Nat.div_add by exact Hs.
  rewrite Nat.mod_small, Nat.div_small, Nat.add_0_l by lia.
  apply pick_snoc.
  unfold row_index.
  rewrite swap01_length, length_rev, NpFacts.unravel_length, length_rev, swap01_length.
  unfold lens. apply length_map.
Qed.

(** Two arrays of two items, and a third of two. *)
Lemma combinations_append_array_witness :
  exists t t',
    combinations 0 [[1; 2]; [3; 4]] = Ok t /\
    combinations 0 ([[1; 2]; [3; 4]] ++ [[5; 6]]) = Ok t' /\
    Np.rows t' = flat_map (fun v => map (fun row => row ++ [v]) (Np.rows t)) [5; 6].
Proof.
  apply (@combinations_append_array nat 0 [[1; 2]; [3; 4]] [5; 6]). simpl. lia.
Defined.

(** ** [linspace] as the function uses it *)

Open Scope R_scope.

(** With at least two samples, the first is [start], the last is [stop],
    and consecutive samples are [(stop - start) / (num - 1)] apart. *)
Theorem linspace_ends_and_step (start stop : R) (num : nat) :
  (2 <= num)%nat ->
  nth 0 (linspace start stop num) 0 = start /\
  nth (num - 1) (linspace start stop num) 0 = stop /\
  forall k, (S k < num)%nat ->
    nth (S k) (linspace start stop num) 0 - nth k (linspace start stop num) 0
    = (stop - start) / INR (num - 1).
Proof.
  intros Hn.
  assert (Hpos : 0 < INR (num - 1)) by (apply lt_0_INR; lia).
  repeat split.
  - rewrite linspace_nth by lia. simpl. lra.
  - rewrite linspace_nth by lia. field. lra.
  - intros k Hk. rewrite !linspace_nth by lia. rewrite S_INR. lra.
Qed.

Lemma linspace_ends_and_step_witness :
  nth 0 (linspace 1 3 5) 0 = 1 /\
  nth (5 - 1) (linspace 1 3 5) 0 = 3 /\
  forall k, (S k < 5)%nat ->
    nth (S k) (linspace 1 3 5) 0 - nth k (linspace 1 3 5) 0 = (3 - 1) / INR (5 - 1).
Proof. apply (@linspace_ends_and_step 1 3 5). lia. Defined.

Lemma linspace_gap (start stop : R) (num j k : nat) :
  (j < k < num)%nat ->
  nth k (linspace start stop num) 0 - nth j (linspace start stop num) 0
  = (INR k - INR j) * ((stop - start) / INR (num - 1))
  /\ 0 < INR k - INR j /\ 0 < INR (num - 1).
Proof.
  intros Hjk. rewrite !linspace_nth by lia. split; [ring|].
  split; [|apply lt_0_INR; lia].
  assert (INR j < INR k) by (apply lt_INR; lia). lra.
Qed.

Lemma linspace_distinct (start stop : R) (num : nat) :
  start <> stop -> NoDup (linspace start stop num).
Proof.
  intros Hne.
  assert (Hstep : forall j k, (j < k < num)%nat ->
            nth k (linspace start stop num) 0 <> nth j (linspace start stop num) 0).
  { intros j k Hjk E. destruct (linspace_gap start stop Hjk) as (Hg & Hd & Hp).
    rewrite E, Rminus_diag in Hg. symmetry in Hg.
    apply Rmult_integral in Hg as [Hg|Hg]; [lra|].
    unfold Rdiv in Hg. apply Rmult_integral in Hg as [Hg|Hg]; [lra|].
    pose proof (Rinv_0_lt_compat _ Hp). lra. }
  apply (NoDup_nth _ 0). intros i j Hi Hj E.
  rewrite linspace_length in Hi, Hj.
  destruct (Nat.lt_trichotomy i j) as [H|[H|H]]; [|exact H|].
  - exfalso. apply (Hstep i j); [lia | now symmetry].
  - exfalso. apply (Hstep j i); [lia | exact E].
Qed.

(** The samples between two distinct ends are pairwise distinct; they
    increase strictly when [start < stop] and decrease strictly when
    [stop < start]. *)
Theorem linspace_strictly_monotone (start stop : R) (num : nat) :
  start <> stop ->
  NoDup (linspace start stop num) /\
  (start < stop ->
   forall j k, (j < k < num)%nat ->
     nth j (linspace start stop num) 0 < nth k (linspace start stop num) 0) /\
  (stop < start ->
   forall j k, (j < k < num)%nat ->
     nth k (linspace start stop num) 0 < nth j (linspace start stop num) 0).
Proof.
  intros Hne. split; [now apply linspace_distinct|]. split.
  - intros Hlt j k Hjk. destruct (linspace_gap start stop Hjk) as (Hg & Hd & Hp).
    assert (0 < (INR k - INR j) * ((stop - start) / INR (num - 1))).
    { apply Rmult_lt_0_compat; [exact Hd|]. apply Rdiv_lt_0_compat; lra. }
    lra.
  - intros Hlt j k Hjk. destruct (linspace_gap start stop Hjk) as (Hg & Hd & Hp).
    assert (0 < (INR k - INR j) * ((start - stop) / INR (num - 1))).
    { apply Rmult_lt_0_compat; [exact Hd|]. apply Rdiv_lt_0_compat; lra. }
    assert ((INR k - INR j) * ((stop - start) / INR (num - 1))
            = - ((INR k - INR j) * ((start - stop) / INR (num - 1)))) by (field; lra).
    lra.
Qed.

Lemma linspace_strictly_monotone_witness : NoDup (linspace 0 1 4).
Proof. apply (@linspace_strictly_monotone 0 1 4). lra. Defined.

(** In exact arithmetic, exchanging the two ends reverses the samples,
    unless there is a single sample, which is always [start]. *)
Theorem linspace_reversed (start stop : R) (num : nat) :
  num <> 1%nat ->
  rev (linspace start stop num) = linspace stop start num.
Proof.
  intros Hn. apply (nth_ext _ _ 0 0).
  - now rewrite length_rev, !linspace_length.
  - intros k Hk. rewrite length_rev, linspace_length in Hk.
    rewrite rev_nth by now rewrite linspace_length.
    rewrite linspace_length, !linspace_nth by lia.
    assert (Hpos : 0 < INR (num - 1)) by (apply lt_0_INR; lia).
    replace (num - S k)%nat with (num - 1 - k)%nat by lia.
    rewrite minus_INR by lia. field. lra.
Qed.

Lemma linspace_reversed_witness : rev (linspace 0 1 3) = linspace 1 0 3.
Proof. apply (@linspace_reversed 0 1 3). lia. Defined.

Lemma linspace_bounds_descending (start stop : R) (num : nat) (v : R) :
  stop <= start -> In v (linspace start stop num) -> stop <= v <= start.
Proof.
  intros Hle Hin.
  destruct (In_nth _ _ 0 Hin) as (k & Hk & <-).
  rewrite linspace_length in Hk. rewrite linspace_nth by exact Hk.
  destruct (Nat.eq_dec num 1) as [->|Hn1].
  - replace k with 0%nat by lia. simpl. lra.
  - assert (Hpos : 0 < INR (num - 1)) by (apply lt_0_INR; lia).
    assert (Hk0 : 0 <= INR k) by apply pos_INR.
    assert (Hkn : INR k <= INR (num - 1)) by (apply le_INR; lia).
    assert (Hstep : 0 <= (start - stop) / INR (num - 1)).
    { apply Rmult_le_pos; [lra | left; now apply Rinv_0_lt_compat]. }
    assert (Hfull : INR (num - 1) * ((start - stop) / INR (num - 1)) = start - stop)
      by (field; lra).
    assert (Hneg : (stop - start) / INR (num - 1) = - ((start - stop) / INR (num - 1)))
      by (field; lra).
    rewrite Hneg. split; nra.
Qed.

(** Whatever the order of the two ends, every sample lies between them. *)
Theorem linspace_between_ends (start stop : R) (num : nat) (v : R) :
  In v (linspace start stop num) ->
  Rmin start stop <= v <= Rmax start stop.
Proof.
  intros Hin. destruct (Rle_dec start stop) as [Hle|Hgt].
  - rewrite Rmin_left, Rmax_right by exact Hle.
    exact (@linspace_bounds start stop num v Hle Hin).
  - assert (Hle : stop <= start) by lra.
    rewrite Rmin_right, Rmax_left by exact Hle.
    exact (@linspace_bounds_descending start stop num v Hle Hin).
Qed.

Lemma linspace_between_ends_witness : Rmin 2 0 <= 2 <= Rmax 2 0.
Proof.
  apply (@linspace_between_ends 2 0 1 2). rewrite linspace_1. now left.
Defined.

Close Scope R_scope.

(** ** The grid of [linearly_spaced_combinations], further *)

Open Scope R_scope.

Lemma combinations_rows_distinct (A : Type) (dflt : A) (arrays : list (list A))
      (t : Np.ndarray A) :
  combinations dflt arrays = Ok t -> arrays <> [] ->
  Forall (@NoDup A) arrays -> NoDup (Np.rows t).
Proof.
  intros Ht Hne Hnd.
  pose proof (@combinations_rows_permutation A dflt arrays t Ht Hne) as Hperm.
  apply (Permutation_NoDup (Permutation_sym Hperm)). now apply cartesian_NoDup.
Qed.

Lemma size_repeat (n d : nat) : Np.size (repeat n d) = (n ^ d)%nat.
Proof.
  induction d as [|d IH]; [reflexivity|].
  cbn [repeat]. rewrite NpFacts.size_cons, IH. reflexivity.
Qed.

Lemma combine_nonempty (X Y : Type) (l : list X) (m : list Y) :
  l <> [] -> m <> [] -> combine l m <> [].
Proof. destruct l, m; simpl; congruence. Qed.

Lemma effective_counts_nonempty (d : nat) (num_samples : sample_spec) :
  (1 <= d)%nat -> spec_fits d num_samples -> effective_counts d num_samples <> [].
Proof.
  intros Hd Hfit E. apply (f_equal (@length nat)) in E.
  rewrite (effective_counts_length _ _ Hfit) in E. simpl in E. lia.
Qed.

Lemma linearly_spaced_combinations_scalar_count_aux (bounds : list (R * R)) (n : nat) :
  bounds <> [] -> exists t, linearly_spaced_combinations bounds (Scalar n) = Ok t.
Proof.
  intros Hne.
  destruct (@grid_of_pairs (combine bounds (repeat n (length bounds)))) as (t & Ht & _).
  { apply combine_nonempty; [exact Hne|].
    destruct bounds; [congruence | discriminate]. }
  now exists t.
Qed.

(** The docstring's count: with one sample count [n] for all of the [d >= 1]
    dimensions, the table has [n ** d] rows. *)
Theorem linearly_spaced_combinations_scalar_count (bounds : list (R * R)) (n : nat) :
  (1 <= length bounds)%nat ->
  exists t,
    linearly_spaced_combinations bounds (Scalar n) = Ok t /\
    Np.shape t = [(n ^ length bounds)%nat; length bounds] /\
    length (Np.rows t) = (n ^ length bounds)%nat.
Proof.
  intros Hd.
  assert (Hlen : length bounds = length (repeat n (length bounds)))
    by now rewrite repeat_length.
  destruct (@grid_of_pairs (combine bounds (repeat n (length bounds))))
    as (t & Ht & Hshape & Hrows & _).
  { apply combine_nonempty.
    - intros ->. simpl in Hd. lia.
    - destruct (length bounds); [lia | discriminate]. }
  rewrite (combine_snd _ _ Hlen), size_repeat in Hshape, Hrows.
  rewrite length_combine, <- Hlen, Nat.min_id in Hshape.
  exists t. repeat split; assumption.
Qed.

Lemma linearly_spaced_combinations_scalar_count_witness :
  exists t,
    linearly_spaced_combinations [(0, 1); (0, 1); (0, 1)] (Scalar 4) = Ok t /\
    Np.shape t = [64%nat; 3%nat] /\
    length (Np.rows t) = 64%nat.
Proof.
  apply (@linearly_spaced_combinations_scalar_count [(0, 1); (0, 1); (0, 1)] 4).
  simpl. lia.
Defined.

Lemma linspace_has_start (start stop : R) (num : nat) :
  (1 <= num)%nat -> In start (linspace start stop num).
Proof.
  intros Hn.
  assert (E : nth 0 (linspace start stop num) 0 = start)
    by (rewrite linspace_nth by lia; simpl; lra).
  rewrite <- E at 1. apply nth_In. rewrite linspace_length. lia.
Qed.

Lemma linspace_has_stop (start stop : R) (num : nat) :
  (2 <= num)%nat -> In stop (linspace start stop num).
Proof.
  intros Hn. destruct num as [|[|m]]; try lia.
  rewrite linspace_many. apply in_or_app. right. now left.
Qed.

(** In exact arithmetic, the two corners of the box are grid points: the
    row of all the lower bounds is in the table when every count is at
    least 1, the row of all the upper bounds when every count is at
    least 2. *)
Theorem linearly_spaced_combinations_corners
        (bounds : list (R * R)) (num_samples : sample_spec) :
  (1 <= length bounds)%nat ->
  spec_fits (length bounds) num_samples ->
  let counts := effective_counts (length bounds) num_samples in
  exists t,
    linearly_spaced_combinations bounds num_samples = Ok t /\
    (Forall (fun n => 1 <= n)%nat counts -> In (map fst bounds) (Np.rows t)) /\
    (Forall (fun n => 2 <= n)%nat counts -> In (map snd bounds) (Np.rows t)).
Proof.
  intros Hd Hfit counts.
  assert (Hlen : length bounds = length counts)
    by (symmetry; now apply effective_counts_length).
  destruct (@combinations_members R 0 (grid_inputs (combine bounds counts)))
    as (t & Ht & _ & _ & Hin).
  { unfold grid_inputs. intros E. apply map_eq_nil in E. revert E.
    apply combine_nonempty.
    - intros ->. simpl in Hd. lia.
    - now apply effective_counts_nonempty. }
  exists t. split; [exact Ht|].
  clearbody counts. clear Ht Hfit Hd.
  split; intros Hall; apply Hin; clear Hin;
    revert counts Hlen Hall;
    induction bounds as [|b bs IH]; intros [|c cs] Hlen Hall;
      simpl in *; try discriminate; try constructor;
      inversion Hall; subst.
  - now apply linspace_has_start.
  - apply IH; [lia | assumption].
  - now apply linspace_has_stop.
  - apply IH; [lia | assumption].
Qed.

Lemma linearly_spaced_combinations_corners_witness :
  exists t,
    linearly_spaced_combinations [(0, 1); (2, 5)] (Scalar 3) = Ok t /\
    In [0; 2] (Np.rows t) /\ In [1; 5] (Np.rows t).
Proof.
  destruct (@linearly_spaced_combinations_corners [(0, 1); (2, 5)] (Scalar 3))
    as (t & Ht & Hlow & Hhigh).
  - simpl. lia.
  - exact I.
  - exists t. split; [exact Ht|]. split.
    + apply Hlow. repeat constructor.
    + apply Hhigh. repeat constructor.
Defined.

(** In exact arithmetic, no grid point comes twice when the two bounds of
    every dimension differ. *)
Theorem linearly_spaced_combinations_rows_distinct
        (bounds : list (R * R)) (num_samples : sample_spec) :
  (1 <= length bounds)%nat ->
  spec_fits (length bounds) num_samples ->
  Forall (fun b => fst b <> snd b) bounds ->
  exists t,
    linearly_spaced_combinations bounds num_samples = Ok t /\
    NoDup (Np.rows t).
Proof.
  intros Hd Hfit Hne.
  set (counts := effective_counts (length bounds) num_samples).
  destruct (@grid_of_pairs (combine bounds counts)) as (t & Ht & _).
  { apply combine_nonempty.
    - intros ->. simpl in Hd. lia.
    - now apply effective_counts_nonempty. }
  exists t. split; [exact Ht|].
  apply (@combinations_rows_distinct R 0 _ t Ht).
  - unfold grid_inputs. intros E. apply map_eq_nil in E. revert E.
    apply combine_nonempty.
    + intros ->. simpl in Hd. lia.
    + now apply effective_counts_nonempty.
  - unfold grid_inputs. apply Forall_map, Forall_forall.
    intros [b n] Hp. apply in_combine_l in Hp.
    rewrite Forall_forall in Hne. apply linspace_distinct. exact (Hne b Hp).
Qed.

Lemma linearly_spaced_combinations_rows_distinct_witness :
  exists t,
    linearly_spaced_combinations [(0, 1); (2, 5)] (Sequence [3%nat; 2%nat]) = Ok t /\
    NoDup (Np.rows t).
Proof.
  apply (@linearly_spaced_combinations_rows_distinct
           [(0, 1); (2, 5)] (Sequence [3%nat; 2%nat])).
  - simpl. lia.
  - reflexivity.
  - repeat constructor; simpl; lra.
Defined.

(** A count of zero in any dimension empties the grid: no rows, and still
    one column per dimension. *)
Theorem linearly_spaced_combinations_zero_count
        (bounds : list (R * R)) (num_samples : sample_spec) :
  (1 <= length bounds)%nat ->
  spec_fits (length bounds) num_samples ->
  In 0%nat (effective_counts (length bounds) num_samples) ->
  exists t,
    linearly_spaced_combinations bounds num_samples = Ok t /\
    Np.shape t = [0%nat; length bounds] /\
    Np.rows t = [].
Proof.
  intros Hd Hfit Hzero.
  set (counts := effective_counts (length bounds) num_samples) in *.
  assert (Hlen : length bounds = length counts)
    by (symmetry; now apply effective_counts_length).
  destruct (@grid_of_pairs (combine bounds counts)) as (t & Ht & Hshape & Hrows & _).
  { apply combine_nonempty.
    - intros ->. simpl in Hd. lia.
    - now apply effective_counts_nonempty. }
  rewrite (combine_snd _ _ Hlen), (size_zero _ Hzero) in Hshape, Hrows.
  rewrite length_combine, <- Hlen, Nat.min_id in Hshape.
  exists t. split; [exact Ht|]. split; [exact Hshape|].
  now apply length_zero_iff_nil.
Qed.

Lemma linearly_spaced_combinations_zero_count_witness :
  exists t,
    linearly_spaced_combinations [(0, 1); (2, 5)] (Sequence [3%nat; 0%nat]) = Ok t /\
    Np.shape t = [0%nat; 2%nat] /\
    Np.rows t = [].
Proof.
  apply (@linearly_spaced_combinations_zero_count
           [(0, 1); (2, 5)] (Sequence [3%nat; 0%nat])).
  - simpl. lia.
  - reflexivity.
  - simpl. auto.
Defined.

(** With integer counts, every input is built before the grid is: a
    negative count ends the comprehension with the [ValueError] of
    [np.linspace]; otherwise the inputs are those of the natural-number
    counts. *)
Lemma comprehension_linspace_checked (pairs : list ((R * R) * Z)) :
  (Forall (fun bn => (0 <= snd bn)%Z) pairs ->
   comprehension
     (map (fun bn => linspace_checked (fst (fst bn)) (snd (fst bn)) (snd bn)) pairs)
   = Ok (grid_inputs (map (fun bn => (fst bn, Z.to_nat (snd bn))) pairs))) /\
  (Exists (fun bn => (snd bn < 0)%Z) pairs ->
   comprehension
     (map (fun bn => linspace_checked (fst (fst bn)) (snd (fst bn)) (snd bn)) pairs)
   = Raise "ValueError").
Proof.
  induction pairs as [|[b c] rest [IHok IHneg]]; split.
  - reflexivity.
  - intros H. inversion H.
  - intros H. inversion H as [|? ? Hc Hrest]; subst. cbn [snd] in Hc.
    cbn [map comprehension fst snd]. unfold linspace_checked at 1.
    destruct (Z.ltb_spec c 0) as [Hneg|_]; [lia|]. cbn [bind].
    rewrite (IHok Hrest). reflexivity.
  - intros H. cbn [map comprehension fst snd]. unfold linspace_checked at 1.
    destruct (Z.ltb_spec c 0) as [Hneg|Hpos]; [reflexivity|]. cbn [bind].
    inversion H as [? ? Hc|? ? Hrest]; subst; [cbn [snd] in Hc; lia|].
    rewrite (IHneg Hrest). reflexivity.
Qed.

(** Natural-number counts are integer counts that are not negative: on them
    the two definitions agree. *)
Lemma linearly_spaced_combinations_int_of_spec
      (bounds : list (R * R)) (num_samples : sample_spec) :
  linearly_spaced_combinations_int bounds (int_of_spec num_samples)
  = linearly_spaced_combinations bounds num_samples.
Proof.
  unfold linearly_spaced_combinations_int, linearly_spaced_combinations.
  set (d := length bounds).
  assert (E : int_effective_counts d (int_of_spec num_samples)
              = map Z.of_nat (effective_counts d num_samples)).
  { destruct num_samples as [n|ns]; cbn; [|reflexivity].
    induction d as [|d IH]; [reflexivity|]. cbn. now rewrite IH. }
  rewrite E. generalize (effective_counts d num_samples) as counts. intros counts.
  assert (Hpairs : combine bounds (map Z.of_nat counts)
                   = map (fun bn => (fst bn, Z.of_nat (snd bn))) (combine bounds counts)).
  { clear. revert counts. induction bounds as [|b bs IH]; intros [|c cs];
      try reflexivity. cbn. now rewrite IH. }
  rewrite Hpairs.
  destruct (comprehension_linspace_checked
              (map (fun bn : (R * R) * nat => (fst bn, Z.of_nat (snd bn)))
                   (combine bounds counts))) as [Hok _].
  rewrite Hok.
  - cbn [bind]. rewrite map_map. cbn [fst snd].
    f_equal. unfold grid_inputs. rewrite map_map. apply map_ext.
    intros [b c]. cbn [fst snd]. now rewrite Nat2Z.id.
  - apply Forall_forall. intros bn Hin. apply in_map_iff in Hin as (q & <- & _).
    cbn [snd]. lia.
Qed.



Close Scope R_scope.

(** ** [ellipse_bounds], further *)

Open Scope R_scope.

(** An odd sample count behaves as the next even one: the two calls have
    the same outcome, result or exception. *)
Theorem ellipse_bounds_odd_count
        (eig : mat2 -> result ((R * R) * mat2)) (float_index : R -> result Z)
        (P : mat2) (level : R) (n : nat) :
  Nat.odd n = true ->
  ellipse_bounds eig float_index P level n
  = ellipse_bounds eig float_index P level (S n).
Proof.
  intros Hodd. apply Nat.odd_spec in Hodd as (q & ->).
  assert (E : round_up_even (2 * q + 1) = round_up_even (S (2 * q + 1))).
  { unfold round_up_even.
    replace ((2 * q + 1) mod 2)%nat with 1%nat
      by (apply (Nat.mod_unique _ 2 q); lia).
    replace (S (2 * q + 1) mod 2)%nat with 0%nat
      by (apply (Nat.mod_unique _ 2 (S q)); lia).
    lia. }
  unfold ellipse_bounds. now rewrite E.
Qed.

Lemma ellipse_bounds_odd_count_witness :
  ellipse_bounds eig_diagonal float_index_legacy identity2 1 3
  = ellipse_bounds eig_diagonal float_index_legacy identity2 1 4.
Proof.
  apply (@ellipse_bounds_odd_count eig_diagonal float_index_legacy identity2 1 3).
  reflexivity.
Defined.



(** In exact arithmetic: when the first item of the eigenvector matrix and
    its determinant have the same sign, the sequence returned as upper
    bound is nowhere below the one returned as lower bound, and the two
    meet at index 0 only. *)
Theorem ellipse_bounds_branches_ordered
        (eig : mat2 -> result ((R * R) * mat2)) (float_index : R -> result Z)
        (P : mat2) (level : R) (n : nat)
        (w : R * R) (v : mat2) (x yu yl : list R) :
  positive_definite P -> 0 < level ->
  eig P = Ok (w, v) -> eig_ok P w v ->
  0 < m00 v * (m00 v * m11 v - m01 v * m10 v) ->
  float_index_contract float_index ->
  ellipse_bounds eig float_index P level n = Ok (x, yu, yl) ->
  forall k, (k < length x)%nat ->
    nth k yl 0 <= nth k yu 0 /\
    (nth k yl 0 = nth k yu 0 <-> k = 0%nat).
Proof.
  intros Hpd Hlevel Heig Hok Hor Hfi Hres.
  destruct (@ellipse_bounds_branch_order eig float_index P level n w v x yu yl
              Hpd Hlevel Heig Hok Hfi Hres) as (H0 & Hpos & _).
  intros k Hk. destruct (Nat.eq_dec k 0) as [->|Hk0].
  - rewrite (H0 ltac:(lia)). split; [lra | tauto].
  - pose proof (Hpos Hor k ltac:(lia)) as Hlt. split; [lra|].
    split; [intros E; lra | intros E; contradiction].
Qed.

Lemma ellipse_bounds_branches_ordered_witness :
  exists x yu yl,
    ellipse_bounds eig_diagonal float_index_legacy identity2 1 6 = Ok (x, yu, yl) /\
    forall k, (k < length x)%nat ->
      nth k yl 0 <= nth k yu 0 /\
      (nth k yl 0 = nth k yu 0 <-> k = 0%nat).
Proof.
  destruct (@ellipse_bounds_legacy_returns eig_diagonal identity2 1 6 _ eq_refl)
    as (x & yu & yl & Hres).
  exists x, yu, yl. split; [exact Hres|].
  apply (@ellipse_bounds_branches_ordered eig_diagonal float_index_legacy identity2 1 6
           (1, 1) identity2 x yu yl).
  - exact positive_definite_identity.
  - lra.
  - reflexivity.
  - exact eig_ok_identity.
  - cbn. lra.
  - exact float_index_legacy_contract.
  - exact Hres.
Defined.

Lemma ellipse_x_offset_square (V : mat2) :
  let theta0 := arctan_quot (m01 V) (m00 V) in
  ellipse_x V theta0 * ellipse_x V theta0 = m00 V * m00 V + m01 V * m01 V.
Proof.
  intros theta0. unfold ellipse_x.
  pose proof (arctan_quot_stationary (m01 V) (m00 V)) as Hst. fold theta0 in Hst.
  pose proof (sin2_cos2 theta0) as Hsc. unfold Rsqr in Hsc.
  assert (Z : (m00 V * sin theta0 - m01 V * cos theta0)
              * (m00 V * sin theta0 - m01 V * cos theta0) = 0)
    by (rewrite Hst; ring).
  replace (m00 V * m00 V + m01 V * m01 V)
    with ((m00 V * m00 V + m01 V * m01 V) * (sin theta0 * sin theta0 + cos theta0 * cos theta0))
    by (rewrite Hsc; ring).
  nra.
Qed.

(** In exact arithmetic, the returned x positions: item [k] is the first
    item times the cosine of the sample angle [2 pi k / (n - 1)]; the first
    item is not zero, and its opposite is never among the items; the items
    decrease strictly when the first item of the eigenvector matrix is not
    negative, and increase strictly when it is negative. *)
Theorem ellipse_bounds_x_positions
        (eig : mat2 -> result ((R * R) * mat2)) (float_index : R -> result Z)
        (P : mat2) (level : R) (n : nat)
        (w : R * R) (v : mat2) (x yu yl : list R) :
  positive_definite P -> 0 < level ->
  eig P = Ok (w, v) -> eig_ok P w v ->
  float_index_contract float_index ->
  ellipse_bounds eig float_index P level n = Ok (x, yu, yl) ->
  let N := round_up_even n in
  (forall k, (k < length x)%nat ->
     nth k x 0 = nth 0 x 0 * cos (INR k * (2 * PI / INR (N - 1))) /\
     nth k x 0 <> - nth 0 x 0) /\
  ((1 <= length x)%nat -> nth 0 x 0 <> 0) /\
  (0 <= m00 v -> forall j k, (j < k < length x)%nat -> nth k x 0 < nth j x 0) /\
  (m00 v < 0 -> forall j k, (j < k < length x)%nat -> nth j x 0 < nth k x 0).
Proof.
  intros Hpd Hlevel Heig Hok Hfi Hres N.
  destruct (@ellipse_bounds_items eig float_index P level n x yu yl Hfi Hres)
    as (w' & v' & Heig' & Lx & _ & _ & Hitems).
  rewrite Heig in Heig'. injection Heig' as <- <-.
  pose proof (round_up_even_double n) as HN. fold N in HN, Lx, Hitems.
  set (h := (N / 2)%nat) in *.
  set (V := scale_axes w v level) in *.
  set (theta0 := arctan_quot (m01 V) (m00 V)) in *.
  set (M := ellipse_x V theta0).
  set (t := fun k : nat => INR k * (2 * PI / INR (N - 1))).
  assert (Hx : forall k, (k < h)%nat -> nth k x 0 = M * cos (t k)).
  { intros k Hk. destruct (Hitems k Hk) as (E & _). rewrite E.
    unfold M, t, theta0. now rewrite ellipse_x_shift. }
  assert (Ht : forall k, (k < h)%nat -> 0 <= t k < PI).
  { intros k Hk. unfold t. rewrite HN. now apply first_half_angle. }
  assert (Hx0 : (1 <= h)%nat -> nth 0 x 0 = M).
  { intros H. rewrite Hx by lia. unfold t. simpl INR. rewrite Rmult_0_l, cos_0. ring. }
  destruct (scale_positive Hpd Hok Hlevel) as (S0 & S1 & _).
  assert (HM2 : M * M = m00 V * m00 V + m01 V * m01 V) by apply ellipse_x_offset_square.
  assert (HMnz : M <> 0).
  { intros Z. rewrite Z in HM2.
    destruct (scaled_row_nonzero Hpd Hok Hlevel) as [H|H]; fold V in H; nra. }
  assert (Hcos : forall j k, (j < k < h)%nat -> cos (t k) < cos (t j)).
  { intros j k Hjk.
    destruct (Ht j ltac:(lia)) as (Hj0 & Hj1). destruct (Ht k ltac:(lia)) as (Hk0 & Hk1).
    apply cos_decreasing_1; try lra.
    unfold t. apply Rmult_lt_compat_r.
    - assert (0 < INR (N - 1)) by (apply lt_0_INR; lia).
      pose proof PI_RGT_0. apply Rdiv_lt_0_compat; lra.
    - apply lt_INR. lia. }
  rewrite Lx.
  split; [|split; [|split]].
  - intros k Hk. rewrite Hx0 by lia. split; [now apply Hx|].
    rewrite Hx by exact Hk. intros E.
    assert (Hc : cos (t k) = -1).
    { apply (Rmult_eq_reg_l M); [lra | exact HMnz]. }
    destruct (Ht k Hk) as (Hk0 & Hk1).
    destruct (Req_dec (t k) 0) as [Z|NZ].
    + rewrite Z, cos_0 in Hc. lra.
    + assert (cos PI < cos (t k)) by (apply cos_decreasing_1; pose proof PI_RGT_0; lra).
      rewrite cos_PI in *. lra.
  - intros H. now rewrite Hx0.
  - intros Hv j k Hjk.
    assert (HMpos : 0 < M).
    { assert (0 <= M).
      { apply ellipse_x_offset_nonneg. unfold V, scale_axes. cbn [m00]. nra. }
      lra. }
    rewrite !Hx by lia. apply Rmult_lt_compat_l; [exact HMpos|]. now apply Hcos.
  - intros Hv j k Hjk.
    assert (Ha : m00 V < 0) by (unfold V, scale_axes; cbn [m00]; nra).
    assert (HMneg : M < 0).
    { pose proof (ellipse_x_offset_sign V) as Hs. cbv zeta in Hs. fold theta0 M in Hs.
      assert (Hc : 0 < cos theta0) by (apply arctan_quot_cos_pos; lra).
      assert (0 < (m00 V * m00 V + m01 V * m01 V) * cos theta0)
        by (apply Rmult_lt_0_compat; [nra | exact Hc]).
      nra. }
    rewrite !Hx by lia. pose proof (Hcos j k Hjk). nra.
Qed.

Lemma ellipse_bounds_x_positions_witness :
  exists x yu yl,
    ellipse_bounds eig_diagonal float_index_legacy identity2 1 6 = Ok (x, yu, yl) /\
    (forall j k, (j < k < length x)%nat -> nth k x 0 < nth j x 0).
Proof.
  destruct (@ellipse_bounds_legacy_returns eig_diagonal identity2 1 6 _ eq_refl)
    as (x & yu & yl & Hres).
  exists x, yu, yl. split; [exact Hres|].
  destruct (@ellipse_bounds_x_positions eig_diagonal float_index_legacy identity2 1 6
              (1, 1) identity2 x yu yl) as (_ & _ & Hdec & _).
  - exact positive_definite_identity.
  - lra.
  - reflexivity.
  - exact eig_ok_identity.
  - exact float_index_legacy_contract.
  - exact Hres.
  - apply Hdec. cbn. lra.
Defined.

Close Scope R_scope.

Open Scope R_scope.

Lemma arctan_quot_scale (lam b a : R) :
  0 < lam -> arctan_quot (lam * b) (lam * a) = arctan_quot b a.
Proof.
  intros Hlam. unfold arctan_quot.
  destruct (Req_dec_T a 0) as [->|Ha].
  - rewrite Rmult_0_r. destruct (Req_dec_T 0 0) as [_|H]; [|now contradiction H].
    destruct (Rlt_dec 0 (lam * b)) as [H1|H1], (Rlt_dec 0 b) as [H2|H2];
      try reflexivity; exfalso; nra.
  - destruct (Req_dec_T (lam * a) 0) as [Z|_].
    + exfalso. apply Rmult_integral in Z as [Z|Z]; [lra | contradiction].
    + f_equal. field. split; [exact Ha | lra].
Qed.

Lemma sqrt_scale (lam q : R) : 0 < lam -> sqrt (lam * lam * q) = lam * sqrt q.
Proof.
  intros Hlam. rewrite sqrt_mult_alt by nra. rewrite sqrt_square by lra. reflexivity.
Qed.

Lemma slice_back_map (X Y : Type) (f : X -> Y) (l : list X) (stop : Z) :
  slice_back (map f l) stop = map f (slice_back l stop).
Proof. unfold slice_back. now rewrite length_map, skipn_map, map_rev. Qed.

Lemma slice_front_map (X Y : Type) (f : X -> Y) (l : list X) (stop : Z) :
  slice_front (map f l) stop = map f (slice_front l stop).
Proof. unfold slice_front. now rewrite length_map, firstn_map. Qed.

(** In exact arithmetic, level sets of one matrix are similar: when the
    call returns, multiplying the level by [lam ^ 2] multiplies every
    returned coordinate by [lam]. *)
Theorem ellipse_bounds_level_scaling
        (eig : mat2 -> result ((R * R) * mat2)) (float_index : R -> result Z)
        (P : mat2) (level lam : R) (n : nat)
        (w : R * R) (v : mat2) (x yu yl : list R) :
  positive_definite P -> 0 < level -> 0 < lam ->
  eig P = Ok (w, v) -> eig_ok P w v ->
  ellipse_bounds eig float_index P level n = Ok (x, yu, yl) ->
  ellipse_bounds eig float_index P (lam * lam * level) n
  = Ok (map (Rmult lam) x, map (Rmult lam) yu, map (Rmult lam) yl).
Proof.
  intros _ _ Hlam Heig _ Hres.
  destruct (@ellipse_bounds_inv eig float_index P level n x yu yl Hres)
    as (w' & v' & i & j & Heig' & Hi & Hj & Hx & Hyu & Hyl).
  rewrite Heig in Heig'. injection Heig' as <- <-.
  unfold ellipse_bounds. rewrite Heig. cbn [bind fst snd].
  set (N := round_up_even n) in *.
  rewrite Hi. cbn [bind]. rewrite Hj. cbn [bind].
  set (V := scale_axes w v level) in *. set (V' := scale_axes w v (lam * lam * level)).
  assert (HV : m00 V' = lam * m00 V /\ m01 V' = lam * m01 V /\
               m10 V' = lam * m10 V /\ m11 V' = lam * m11 V).
  { unfold V, V', scale_axes. cbn [m00 m01 m10 m11].
    replace (lam * lam * level / fst w) with (lam * lam * (level / fst w))
      by (unfold Rdiv; ring).
    replace (lam * lam * level / snd w) with (lam * lam * (level / snd w))
      by (unfold Rdiv; ring).
    rewrite !sqrt_scale by exact Hlam. repeat split; ring. }
  destruct HV as (H00 & H01 & H10 & H11).
  assert (Hangle : ellipse_angle V' N = ellipse_angle V N).
  { unfold ellipse_angle. now rewrite H00, H01, arctan_quot_scale. }
  assert (Hpos : ellipse_pos V' (ellipse_angle V N)
                 = map (fun p => (lam * fst p, lam * snd p))
                       (ellipse_pos V (ellipse_angle V N))).
  { unfold ellipse_pos. rewrite map_map. apply map_ext. intros a.
    unfold ellipse_x, ellipse_y. cbn [fst snd]. rewrite H00, H01, H10, H11.
    f_equal; ring. }
  rewrite Hangle, Hpos.
  set (pos := ellipse_pos V (ellipse_angle V N)) in *.
  assert (Hfst : map fst (map (fun p : R * R => (lam * fst p, lam * snd p)) pos)
                 = map (Rmult lam) (map fst pos))
    by (rewrite !map_map; reflexivity).
  assert (Hsnd : map snd (map (fun p : R * R => (lam * fst p, lam * snd p)) pos)
                 = map (Rmult lam) (map snd pos))
    by (rewrite !map_map; reflexivity).
  rewrite Hfst, Hsnd, !(slice_front_map (Rmult lam)), (slice_back_map (Rmult lam)).
  now rewrite Hx, Hyu, Hyl.
Qed.

(** The circle of radius 3 is three times the unit circle. *)
Lemma ellipse_bounds_level_scaling_witness :
  exists x yu yl,
    ellipse_bounds eig_diagonal float_index_legacy identity2 1 4 = Ok (x, yu, yl) /\
    ellipse_bounds eig_diagonal float_index_legacy identity2 (3 * 3 * 1) 4
    = Ok (map (Rmult 3) x, map (Rmult 3) yu, map (Rmult 3) yl).
Proof.
  destruct (@ellipse_bounds_legacy_returns eig_diagonal identity2 1 4 _ eq_refl)
    as (x & yu & yl & Hres).
  exists x, yu, yl. split; [exact Hres|].
  apply (@ellipse_bounds_level_scaling eig_diagonal float_index_legacy identity2 1 3 4
           (1, 1) identity2 x yu yl).
  - exact positive_definite_identity.
  - lra.
  - lra.
  - reflexivity.
  - exact eig_ok_identity.
  - exact Hres.
Defined.

Close Scope R_scope.

(** ** One dimension, and bounds in either order *)

Open Scope R_scope.

(** A single dimension with at least two samples: the table is one column
    of [n] rows that, in exact arithmetic, starts at the lower bound, ends
    at the upper bound and advances by [(max - min) / (n - 1)] from row to
    row. *)
Theorem linearly_spaced_combinations_one_dimension (a b : R) (n : nat) :
  (2 <= n)%nat ->
  exists t,
    linearly_spaced_combinations [(a, b)] (Scalar n) = Ok t /\
    Np.shape t = [n; 1%nat] /\
    (forall k, (k < n)%nat ->
       nth_error (Np.rows t) k = Some [a + INR k * ((b - a) / INR (n - 1))]) /\
    nth_error (Np.rows t) 0 = Some [a] /\
    nth_error (Np.rows t) (n - 1) = Some [b].
Proof.
  intros Hn.
  destruct (@combinations_table R 0 [linspace a b n]) as (t & Ht & Hshape & Hrows);
    [discriminate|].
  cbn [map length] in Hshape, Hrows. rewrite linspace_length in Hshape, Hrows.
  rewrite NpFacts.size_cons, NpFacts.size_nil, Nat.mul_1_r in Hshape, Hrows.
  assert (Hrow : forall k, (k < n)%nat ->
            nth_error (Np.rows t) k = Some [a + INR k * ((b - a) / INR (n - 1))]).
  { intros k Hk. rewrite Hrows, nth_error_map, nth_error_seq.
    destruct (Nat.ltb_spec k n) as [_|]; [|lia].
    cbn [option_map Nat.add]. unfold row_index. cbn.
    rewrite Nat.div_1_r, linspace_nth by exact Hk. reflexivity. }
  assert (Hpos : 0 < INR (n - 1)) by (apply lt_0_INR; lia).
  exists t. split; [exact Ht|]. split; [exact Hshape|]. split; [exact Hrow|]. split.
  - rewrite Hrow by lia. do 2 f_equal. simpl. lra.
  - rewrite Hrow by lia. do 2 f_equal. field. lra.
Qed.

Lemma linearly_spaced_combinations_one_dimension_witness :
  exists t,
    linearly_spaced_combinations [(1, 3)] (Scalar 5) = Ok t /\
    Np.shape t = [5%nat; 1%nat] /\
    nth_error (Np.rows t) 0 = Some [1] /\
    nth_error (Np.rows t) (5 - 1) = Some [3].
Proof.
  destruct (@linearly_spaced_combinations_one_dimension 1 3 5)
    as (t & Ht & Hshape & _ & Hfirst & Hlast).
  - lia.
  - exists t. repeat split; assumption.
Defined.

(** The function does not ask that [min <= max]: in whichever order the two
    bounds of a dimension come, every value of its column lies between
    them, in exact arithmetic. *)
Theorem linearly_spaced_combinations_between_bounds
        (bounds : list (R * R)) (num_samples : sample_spec) :
  (1 <= length bounds)%nat ->
  spec_fits (length bounds) num_samples ->
  exists t,
    linearly_spaced_combinations bounds num_samples = Ok t /\
    forall row, In row (Np.rows t) ->
      Forall2 (fun v b => Rmin (fst b) (snd b) <= v <= Rmax (fst b) (snd b)) row bounds.
Proof.
  intros Hd Hfit.
  set (counts := effective_counts (length bounds) num_samples).
  assert (Hlen : length bounds = length counts)
    by (symmetry; now apply effective_counts_length).
  destruct (@combinations_members R 0 (grid_inputs (combine bounds counts)))
    as (t & Ht & _ & _ & Hin).
  { unfold grid_inputs. intros E. apply map_eq_nil in E. revert E.
    apply combine_nonempty.
    - intros ->. simpl in Hd. lia.
    - now apply effective_counts_nonempty. }
  exists t. split; [exact Ht|].
  intros row Hrow. apply Hin in Hrow.
  rewrite <- (combine_fst _ _ Hlen).
  apply Forall2_map_right.
  apply (proj1 (Forall2_map_right (fun v x => In v x) _ row (combine bounds counts))) in Hrow.
  cbv beta in Hrow. revert Hrow. apply Forall2_impl_in_r.
  apply Forall_forall. intros p _ v Hv.
  exact (@linspace_between_ends _ _ _ _ Hv).
Qed.

Lemma linearly_spaced_combinations_between_bounds_witness :
  exists t,
    linearly_spaced_combinations [(1, 0); (2, 5)] (Scalar 3) = Ok t /\
    forall row, In row (Np.rows t) ->
      Forall2 (fun v b => Rmin (fst b) (snd b) <= v <= Rmax (fst b) (snd b))
              row [(1, 0); (2, 5)].
Proof.
  apply (@linearly_spaced_combinations_between_bounds [(1, 0); (2, 5)] (Scalar 3)).
  - simpl. lia.
  - exact I.
Defined.

Close Scope R_scope.
